(** * Vehicle tracking: marker reconciliation, track loading and lifecycle

    A shallow embedding of [src/composables/useVehicleTracking.ts] (with
    [makeVehicleIcon] of [layers/dvp-layers.ts]) and the properties of the
    reconciliation pass, the track loader and the lifecycle operations.

    Modelling conventions.
    - JavaScript numbers reach the code through [res.json()], so they are
      never NaN and [!==] on them is the negation of an equivalence.  The
      code does no arithmetic on them: it stores them, compares them with
      [!==], replaces a null heading by [0] and interpolates them into
      templates.  They are modelled as [Z], and [!==] on numbers, strings
      and [number | null] as structural disequality.
    - [markerMap] is a JavaScript [Map]: an insertion-ordered association
      list.  [knownIds] and [seenIds] are [Set]s used only through [has]:
      [gset string].
    - A Leaflet marker is a mutable object reached from its registry entry
      and from the layer group.  The marker object lives in its entry and the
      layer group holds stamps (Leaflet's [_leaflet_id], the key of the
      group's [_layers] table), so a mutation through [entry.marker] is the
      one seen through the group.
    - Every Leaflet constructor or mutator the code calls is appended to the
      [calls] log of the state; queries ([getLatLng], [hasLayer]) are not.
    - An [async] function is split at its suspension point into the part
      that runs when it is called and the continuation that runs when the
      fetch settles; other operations may run in between. *)

From Stdlib Require Import ZArith List.
From stdpp Require Import base gmap sets list strings.

Set Warnings "-clear-no-such-hyp".

Local Open Scope string_scope.
Local Open Scope Z_scope.
Local Open Scope list_scope.

(** ** Data model *)

Definition number := Z.

(** [a !== b] on numbers, strings and nullable numbers. *)
Definition strict_ne {A : Type} `{EqDecision A} (a b : A) : bool :=
  bool_decide (a ≠ b).

Record VehiclePosition := mkVehiclePosition {
  vehicleId : string;
  lat       : number;
  lng       : number;
  speed     : option number;
  heading   : option number;
  time      : string
}.

Record RegisteredVehicle := mkRegisteredVehicle {
  rv_id          : number;
  rv_vehicleId   : string;
  rv_name        : string;
  rv_type        : option string;
  rv_description : option string;
  rv_createdAt   : string
}.

(** ** Leaflet objects *)

Record LatLng := mkLatLng { ll_lat : number; ll_lng : number }.

(** [makeVehicleIcon(heading, color)]: a [divIcon] whose html is a fixed
    template around the two interpolated arguments. *)
Record Icon := mkIcon { icon_heading : number; icon_color : string }.

Definition makeVehicleIcon (heading : number) (color : string) : Icon :=
  mkIcon heading color.

(** [makeVehiclePopup(v)]: a fixed template around [v.vehicleId], the
    formatted [v.time] and the optional speed and heading lines. *)
Record Popup := mkPopup {
  popup_vehicleId : string;
  popup_time      : string;
  popup_speed     : option number;
  popup_heading   : option number
}.

Definition makeVehiclePopup (v : VehiclePosition) : Popup :=
  mkPopup (vehicleId v) (time v) (speed v) (heading v).

Record Marker := mkMarker {
  stamp        : nat;
  latlng       : LatLng;
  icon         : Icon;
  zIndexOffset : Z;
  tooltip      : option string;
  popup        : option Popup;
  onClick      : option string   (* the id the click handler selects *)
}.

Record Polyline := mkPolyline {
  pl_stamp   : nat;
  pl_latlngs : list LatLng
}.

Record MarkerEntry := mkMarkerEntry {
  entry_marker  : Marker;
  entry_heading : number;
  entry_speed   : option number;
  entry_color   : string
}.

#[global] Instance LatLng_eq_dec : EqDecision LatLng.
Proof. solve_decision. Defined.
#[global] Instance Icon_eq_dec : EqDecision Icon.
Proof. solve_decision. Defined.
#[global] Instance Popup_eq_dec : EqDecision Popup.
Proof. solve_decision. Defined.
#[global] Instance Marker_eq_dec : EqDecision Marker.
Proof. solve_decision. Defined.
#[global] Instance Polyline_eq_dec : EqDecision Polyline.
Proof. solve_decision. Defined.
#[global] Instance MarkerEntry_eq_dec : EqDecision MarkerEntry.
Proof. solve_decision. Defined.
#[global] Instance VehiclePosition_eq_dec : EqDecision VehiclePosition.
Proof. solve_decision. Defined.

(** The Leaflet constructors and mutators the composable calls. *)
Inductive Call :=
| NewMarker (st : nat) (ll : LatLng) (ic : Icon) (z : Z)
| BindTooltip (st : nat) (text : string)
| BindPopup (st : nat) (p : Popup)
| OnClick (st : nat) (vid : string)
| AddLayer (st : nat)                 (* markerLayer.addLayer(marker) *)
| SetLatLng (st : nat) (ll : LatLng)
| SetIcon (st : nat) (ic : Icon)
| SetPopupContent (st : nat) (p : Popup)
| RemoveLayer (st : nat)              (* markerLayer.removeLayer(marker) *)
| LayerAddTo                          (* markerLayer.addTo(map) *)
| MapRemoveLayer                      (* map.removeLayer(markerLayer) *)
| ClearLayers                         (* markerLayer.clearLayers() *)
| NewPolyline (st : nat) (pts : list LatLng)
| PolylineAddTo (st : nat)
| PolylineRemove (st : nat).

#[global] Instance Call_eq_dec : EqDecision Call.
Proof. solve_decision. Defined.

(** ** The JavaScript [Map] *)

Module JSMap.
Abbreviation t V := (list (string * V)).

Section Ops.
Context {V : Type}.

(** [m.get(k)] *)
Fixpoint get (k : string) (m : t V) : option V :=
  match m with
  | [] => None
  | (k', v) :: m' => if decide (k = k') then Some v else get k m'
  end.

(** [m.set(k, v)]: an existing key keeps its place, a new key goes last. *)
Fixpoint set (k : string) (v : V) (m : t V) : t V :=
  match m with
  | [] => [(k, v)]
  | (k', v') :: m' =>
      if decide (k = k') then (k, v) :: m' else (k', v') :: set k v m'
  end.

(** [m.delete(k)] *)
Definition delete (k : string) (m : t V) : t V :=
  filter (fun kv => kv.1 ≠ k) m.

(** [m.keys()], in iteration order *)
Definition keys (m : t V) : list string := m.*1.
End Ops.
End JSMap.

(** ** State of one [useVehicleTracking] instance and of its map *)

Record State := mkState {
  (* exposed refs *)
  vehicles           : list VehiclePosition;
  registeredVehicles : list RegisteredVehicle;
  selectedVehicleId  : option string;
  visible            : bool;
  (* closure variables *)
  markerLayer        : gset nat;            (* stamps in the layer group *)
  markerMap          : JSMap.t MarkerEntry;
  trackPolyline      : option Polyline;
  timer              : option number;       (* the armed interval, by its period *)
  (* the viewer's map *)
  mapReady           : bool;                (* getMap() is not null *)
  hasMarkerLayer     : bool;                (* map.hasLayer(markerLayer) *)
  mapPolylines       : list Polyline;       (* polylines on the map *)
  (* Leaflet *)
  nextStamp          : nat;
  calls              : list Call
}.

Definition with_vehicles (x : list VehiclePosition) (s : State) : State :=
  mkState x (registeredVehicles s) (selectedVehicleId s) (visible s)
    (markerLayer s) (markerMap s) (trackPolyline s) (timer s) (mapReady s)
    (hasMarkerLayer s) (mapPolylines s) (nextStamp s) (calls s).

Definition with_registeredVehicles (x : list RegisteredVehicle) (s : State)
  : State :=
  mkState (vehicles s) x (selectedVehicleId s) (visible s)
    (markerLayer s) (markerMap s) (trackPolyline s) (timer s) (mapReady s)
    (hasMarkerLayer s) (mapPolylines s) (nextStamp s) (calls s).

Definition with_selectedVehicleId (x : option string) (s : State) : State :=
  mkState (vehicles s) (registeredVehicles s) x (visible s)
    (markerLayer s) (markerMap s) (trackPolyline s) (timer s) (mapReady s)
    (hasMarkerLayer s) (mapPolylines s) (nextStamp s) (calls s).

Definition with_visible (x : bool) (s : State) : State :=
  mkState (vehicles s) (registeredVehicles s) (selectedVehicleId s) x
    (markerLayer s) (markerMap s) (trackPolyline s) (timer s) (mapReady s)
    (hasMarkerLayer s) (mapPolylines s) (nextStamp s) (calls s).

Definition with_markerLayer (x : gset nat) (s : State) : State :=
  mkState (vehicles s) (registeredVehicles s) (selectedVehicleId s) (visible s)
    x (markerMap s) (trackPolyline s) (timer s) (mapReady s)
    (hasMarkerLayer s) (mapPolylines s) (nextStamp s) (calls s).

Definition with_markerMap (x : JSMap.t MarkerEntry) (s : State) : State :=
  mkState (vehicles s) (registeredVehicles s) (selectedVehicleId s) (visible s)
    (markerLayer s) x (trackPolyline s) (timer s) (mapReady s)
    (hasMarkerLayer s) (mapPolylines s) (nextStamp s) (calls s).

Definition with_trackPolyline (x : option Polyline) (s : State) : State :=
  mkState (vehicles s) (registeredVehicles s) (selectedVehicleId s) (visible s)
    (markerLayer s) (markerMap s) x (timer s) (mapReady s)
    (hasMarkerLayer s) (mapPolylines s) (nextStamp s) (calls s).

Definition with_timer (x : option number) (s : State) : State :=
  mkState (vehicles s) (registeredVehicles s) (selectedVehicleId s) (visible s)
    (markerLayer s) (markerMap s) (trackPolyline s) x (mapReady s)
    (hasMarkerLayer s) (mapPolylines s) (nextStamp s) (calls s).

Definition with_mapReady (x : bool) (s : State) : State :=
  mkState (vehicles s) (registeredVehicles s) (selectedVehicleId s) (visible s)
    (markerLayer s) (markerMap s) (trackPolyline s) (timer s) x
    (hasMarkerLayer s) (mapPolylines s) (nextStamp s) (calls s).

Definition with_hasMarkerLayer (x : bool) (s : State) : State :=
  mkState (vehicles s) (registeredVehicles s) (selectedVehicleId s) (visible s)
    (markerLayer s) (markerMap s) (trackPolyline s) (timer s) (mapReady s)
    x (mapPolylines s) (nextStamp s) (calls s).

Definition with_mapPolylines (x : list Polyline) (s : State) : State :=
  mkState (vehicles s) (registeredVehicles s) (selectedVehicleId s) (visible s)
    (markerLayer s) (markerMap s) (trackPolyline s) (timer s) (mapReady s)
    (hasMarkerLayer s) x (nextStamp s) (calls s).

Definition with_nextStamp (x : nat) (s : State) : State :=
  mkState (vehicles s) (registeredVehicles s) (selectedVehicleId s) (visible s)
    (markerLayer s) (markerMap s) (trackPolyline s) (timer s) (mapReady s)
    (hasMarkerLayer s) (mapPolylines s) x (calls s).

(** Record the Leaflet calls [cs], oldest first. *)
Definition log (cs : list Call) (s : State) : State :=
  mkState (vehicles s) (registeredVehicles s) (selectedVehicleId s) (visible s)
    (markerLayer s) (markerMap s) (trackPolyline s) (timer s) (mapReady s)
    (hasMarkerLayer s) (mapPolylines s) (nextStamp s) (calls s ++ cs).

(** The state when [useVehicleTracking] returns, seen once the viewer has
    created its map. *)
Definition initial : State :=
  mkState [] [] None true ∅ [] None None true false [] 0%nat [].

(** What a [fetch] followed by [res.json()] can yield. *)
Inductive FetchResult (A : Type) :=
| Rejected          (* fetch threw: backend unavailable *)
| NotOk             (* a response with [res.ok] false *)
| BadBody           (* [res.json()] threw *)
| Ok (data : A).
Arguments Rejected {A}.
Arguments NotOk {A}.
Arguments BadBody {A}.
Arguments Ok {A} data.

(** ** refresh *)

Definition ACCENT_COLOR : string := "#E65100".
Definition NEUTRAL_COLOR : string := "#757575".

(** [new Set(registeredVehicles.value.map(v => v.vehicleId))] *)
Definition knownIds_of (s : State) : gset string :=
  list_to_set (rv_vehicleId <$> registeredVehicles s).

Definition setLatLng (ll : LatLng) (m : Marker) : Marker :=
  mkMarker (stamp m) ll (icon m) (zIndexOffset m) (tooltip m) (popup m)
    (onClick m).

Definition setIcon (ic : Icon) (m : Marker) : Marker :=
  mkMarker (stamp m) (latlng m) ic (zIndexOffset m) (tooltip m) (popup m)
    (onClick m).

(** Leaflet's [setPopupContent] replaces the content of the bound popup. *)
Definition setPopupContent (p : Popup) (m : Marker) : Marker :=
  mkMarker (stamp m) (latlng m) (icon m) (zIndexOffset m) (tooltip m)
    (match popup m with Some _ => Some p | None => None end) (onClick m).

(** The branch [if (entry) { ... }] of the loop body: the entry after the
    in-place updates, and the Leaflet calls made. *)
Definition update_entry (v : VehiclePosition) (heading : number)
    (color : string) (entry : MarkerEntry) : MarkerEntry * list Call :=
  let st := stamp (entry_marker entry) in
  let ll := latlng (entry_marker entry) in
  let '(e1, c1) :=
    if strict_ne (ll_lat ll) (lat v) || strict_ne (ll_lng ll) (lng v)
    then (mkMarkerEntry (setLatLng (mkLatLng (lat v) (lng v))
                           (entry_marker entry))
            (entry_heading entry) (entry_speed entry) (entry_color entry),
          [SetLatLng st (mkLatLng (lat v) (lng v))])
    else (entry, []) in
  let headingChanged := strict_ne (entry_heading entry) heading in
  let colorChanged   := strict_ne (entry_color entry) color in
  let speedChanged   := strict_ne (entry_speed entry) (speed v) in
  let '(e2, c2) :=
    if headingChanged || colorChanged
    then (mkMarkerEntry (setIcon (makeVehicleIcon heading color)
                           (entry_marker e1))
            heading (entry_speed e1) color,
          [SetIcon st (makeVehicleIcon heading color)])
    else (e1, []) in
  let '(e3, c3) :=
    if headingChanged || speedChanged
    then (mkMarkerEntry (setPopupContent (makeVehiclePopup v)
                           (entry_marker e2))
            (entry_heading e2) (speed v) (entry_color e2),
          [SetPopupContent st (makeVehiclePopup v)])
    else (e2, []) in
  (e3, c1 ++ c2 ++ c3).

(** The branch [else { ... }]: a new marker, registered and added to the
    layer group. *)
Definition create_entry (v : VehiclePosition) (heading : number)
    (color : string) (s : State) : State :=
  let st := nextStamp s in
  let marker :=
    mkMarker st (mkLatLng (lat v) (lng v)) (makeVehicleIcon heading color)
      500 (Some (vehicleId v)) (Some (makeVehiclePopup v))
      (Some (vehicleId v)) in
  log [NewMarker st (mkLatLng (lat v) (lng v))
         (makeVehicleIcon heading color) 500;
       BindTooltip st (vehicleId v);
       BindPopup st (makeVehiclePopup v);
       OnClick st (vehicleId v);
       AddLayer st]
    (with_markerLayer ({[st]} ∪ markerLayer s)
       (with_markerMap
          (JSMap.set (vehicleId v)
             (mkMarkerEntry marker heading (speed v) color) (markerMap s))
          (with_nextStamp (S st) s))).

(** One iteration of [for (const v of data)], without the [seenIds.add]. *)
Definition reconcile_one (knownIds : gset string) (s : State)
    (v : VehiclePosition) : State :=
  let color :=
    if bool_decide (vehicleId v ∈ knownIds) then ACCENT_COLOR
    else NEUTRAL_COLOR in
  let heading := default 0 (heading v) in
  match JSMap.get (vehicleId v) (markerMap s) with
  | Some entry =>
      let '(entry', cs) := update_entry v heading color entry in
      log cs
        (with_markerMap (JSMap.set (vehicleId v) entry' (markerMap s)) s)
  | None => create_entry v heading color s
  end.

(** [for (const v of data) { seenIds.add(v.vehicleId); ... }] *)
Definition reconcile_loop (knownIds : gset string)
    (data : list VehiclePosition) (acc : State * gset string)
  : State * gset string :=
  fold_left
    (fun '(s, seenIds) v =>
       (reconcile_one knownIds s v, {[vehicleId v]} ∪ seenIds))
    data acc.

(** One iteration of [for (const [id, entry] of markerMap)]. *)
Definition remove_one (seenIds : gset string) (s : State)
    (kv : string * MarkerEntry) : State :=
  if bool_decide (kv.1 ∈ seenIds) then s
  else
    log [RemoveLayer (stamp (entry_marker kv.2))]
      (with_markerMap (JSMap.delete kv.1 (markerMap s))
         (with_markerLayer
            (markerLayer s ∖ {[stamp (entry_marker kv.2)]}) s)).

(** The removal loop.  Deleting the entry being visited does not disturb
    the iteration of a [Map], so the loop visits the entries present when
    it starts. *)
Definition remove_unseen (seenIds : gset string) (s : State) : State :=
  fold_left (remove_one seenIds) (markerMap s) s.

(** [if (!map.hasLayer(markerLayer)) markerLayer.addTo(map)] *)
Definition attach_layer (s : State) : State :=
  if hasMarkerLayer s then s
  else log [LayerAddTo] (with_hasMarkerLayer true s).

(** Lines 58-109: the reconcile pass over a fetched snapshot. *)
Definition reconcile (data : list VehiclePosition) (s : State) : State :=
  let knownIds := knownIds_of s in
  let '(s1, seenIds) := reconcile_loop knownIds data (s, ∅) in
  attach_layer (remove_unseen seenIds s1).

(** The continuation of [refresh] once the fetch has settled.  [map] was
    read before the fetch and is not read again. *)
Definition refresh_resume (r : FetchResult (list VehiclePosition))
    (s : State) : State :=
  match r with
  | Ok data =>
      let s1 := with_vehicles data s in
      if negb (visible s1) then s1 else reconcile data s1
  | _ => s
  end.

(** [refresh()] up to its first [await]: whether a fetch was issued. *)
Definition refresh_begin (s : State) : bool := mapReady s.

(** A [refresh] whose fetch settles with [r] before anything else runs. *)
Definition refresh (r : FetchResult (list VehiclePosition)) (s : State)
  : State :=
  if refresh_begin s then refresh_resume r s else s.

(** ** fetchRegisteredVehicles *)

(** The continuation of [fetchRegisteredVehicles]; the call itself only
    issues the fetch. *)
Definition fetchRegisteredVehicles_resume
    (r : FetchResult (list RegisteredVehicle)) (s : State) : State :=
  match r with
  | Ok data => with_registeredVehicles data s
  | _ => s
  end.

(** ** selectVehicle and clearTrack *)

(** [trackPolyline?.remove()] *)
Definition remove_track (s : State) : State :=
  match trackPolyline s with
  | Some pl =>
      log [PolylineRemove (pl_stamp pl)]
        (with_mapPolylines
           (filter (fun q => pl_stamp q ≠ pl_stamp pl) (mapPolylines s)) s)
  | None => s
  end.

(** [selectVehicle(vehicleId)] up to its [await]; the history fetch is
    issued exactly when [mapReady s]. *)
Definition selectVehicle_begin (vehicleId : string) (s : State) : State :=
  if mapReady s
  then with_trackPolyline None
         (remove_track (with_selectedVehicleId (Some vehicleId) s))
  else s.

(** [points.map(p => [p.lat, p.lng])] *)
Definition vertices (points : list VehiclePosition) : list LatLng :=
  (fun p => mkLatLng (lat p) (lng p)) <$> points.

(** The continuation of [selectVehicle] once the history fetch settled. *)
Definition selectVehicle_resume (r : FetchResult (list VehiclePosition))
    (s : State) : State :=
  match r with
  | Ok points =>
      if (length points <? 2)%nat then s
      else
        let st := nextStamp s in
        let pts := vertices points in
        let pl := mkPolyline st pts in
        log [NewPolyline st pts; PolylineAddTo st]
          (with_trackPolyline (Some pl)
             (with_mapPolylines (mapPolylines s ++ [pl])
                (with_nextStamp (S st) s)))
  | _ => s
  end.

(** A [selectVehicle] whose fetch settles before anything else runs. *)
Definition selectVehicle (r : FetchResult (list VehiclePosition))
    (vehicleId : string) (s : State) : State :=
  if mapReady s then selectVehicle_resume r (selectVehicle_begin vehicleId s)
  else s.

Definition clearTrack (s : State) : State :=
  with_selectedVehicleId None (with_trackPolyline None (remove_track s)).

(** ** toggleVisibility, start, stop *)

(** The teardown shared by [toggleVisibility] and [stop]:
    [markerLayer.clearLayers(); markerMap.clear()]. *)
Definition clear_markers (s : State) : State :=
  with_markerMap [] (log [ClearLayers] (with_markerLayer ∅ s)).

(** [map.removeLayer(markerLayer)] *)
Definition detach_layer (s : State) : State :=
  log [MapRemoveLayer] (with_hasMarkerLayer false s).

(** [toggleVisibility()] without the [refresh()] it launches, which is
    launched exactly when [toggleVisibility_refreshes s]. *)
Definition toggleVisibility (s : State) : State :=
  if mapReady s then
    let s1 := with_visible (negb (visible s)) s in
    if visible s1 then s1 else clear_markers (detach_layer s1)
  else s.

Definition toggleVisibility_refreshes (s : State) : bool :=
  mapReady s && negb (visible s).

(** [start(intervalMs)] without the two calls it launches:
    [fetchRegisteredVehicles()] and [refresh()]. *)
Definition start (intervalMs : number) (s : State) : State :=
  with_timer (Some intervalMs) s.

Definition stop (s : State) : State :=
  let s1 := with_timer None s in
  let s2 := remove_track s1 in
  let s3 := if mapReady s2 then detach_layer s2 else s2 in
  clear_markers s3.

(** The viewer's own [onUnmounted] hook, [map.off(); map.remove(); map =
    null]: the map loses its layers and [getMap()] returns null from then
    on.  It runs right after [stop], which the composable registered with
    [onUnmounted] first. *)
Definition drop_map (s : State) : State :=
  with_mapReady false (with_hasMarkerLayer false (with_mapPolylines [] s)).

(** ** Executions

    The event loop: calls made by the viewer, timer ticks and settled
    fetches, interleaved.  A fetch can settle only if it is in flight and
    the timer ticks only while armed.  [stop] is not among the operations
    the composable returns: it runs as the [onUnmounted] hook. *)

Inductive Event :=
| CallStart (intervalMs : number)
| CallStop                                 (* onUnmounted(stop) *)
| CallRefresh
| Tick
| CallFetchRegisteredVehicles
| CallSelectVehicle (vehicleId : string)
| CallClearTrack
| CallToggleVisibility
| DropMap                                  (* the viewer's unmount hook *)
| RefreshSettles (r : FetchResult (list VehiclePosition))
| SelectSettles (r : FetchResult (list VehiclePosition))
| RegisteredSettles (r : FetchResult (list RegisteredVehicle)).

Record System := mkSystem {
  tracking       : State;
  refreshes      : nat;   (* snapshot fetches in flight *)
  selections     : nat;   (* history fetches in flight *)
  registrations  : nat;   (* registered-vehicle fetches in flight *)
  stopped        : bool   (* [stop] has been called *)
}.

Definition booted : System := mkSystem initial 0 0 0 false.

Definition launch_refresh (y : System) : System :=
  if refresh_begin (tracking y)
  then mkSystem (tracking y) (S (refreshes y)) (selections y) (registrations y)
         (stopped y)
  else y.

Definition on_state (f : State -> State) (y : System) : System :=
  mkSystem (f (tracking y)) (refreshes y) (selections y) (registrations y)
    (stopped y).

Definition step (e : Event) (y : System) : option System :=
  match e with
  | CallStart ms =>
      let y1 := mkSystem (tracking y) (refreshes y) (selections y)
                  (S (registrations y)) (stopped y) in
      Some (on_state (start ms) (launch_refresh y1))
  | CallStop =>
      Some (mkSystem (stop (tracking y)) (refreshes y) (selections y)
              (registrations y) true)
  | CallRefresh => Some (launch_refresh y)
  | Tick =>
      match timer (tracking y) with
      | Some _ => Some (launch_refresh y)
      | None => None
      end
  | CallFetchRegisteredVehicles =>
      Some (mkSystem (tracking y) (refreshes y) (selections y)
              (S (registrations y)) (stopped y))
  | CallSelectVehicle vid =>
      Some (mkSystem (selectVehicle_begin vid (tracking y)) (refreshes y)
              (if mapReady (tracking y) then S (selections y) else selections y)
              (registrations y) (stopped y))
  | CallClearTrack => Some (on_state clearTrack y)
  | CallToggleVisibility =>
      let y1 := on_state toggleVisibility y in
      Some (if toggleVisibility_refreshes (tracking y) then launch_refresh y1
            else y1)
  | DropMap => Some (on_state drop_map y)
  | RefreshSettles r =>
      match refreshes y with
      | S n =>
          Some (mkSystem (refresh_resume r (tracking y)) n (selections y)
                  (registrations y) (stopped y))
      | O => None
      end
  | SelectSettles r =>
      match selections y with
      | S n =>
          Some (mkSystem (selectVehicle_resume r (tracking y)) (refreshes y) n
                  (registrations y) (stopped y))
      | O => None
      end
  | RegisteredSettles r =>
      match registrations y with
      | S n =>
          Some (mkSystem (fetchRegisteredVehicles_resume r (tracking y))
                  (refreshes y) (selections y) n (stopped y))
      | O => None
      end
  end.

Fixpoint run (es : list Event) (y : System) : option System :=
  match es with
  | [] => Some y
  | e :: es' =>
      match step e y with
      | Some y' => run es' y'
      | None => None
      end
  end.

(** The Leaflet calls made between state [s] and a later state [s']. *)
Definition calls_since (s s' : State) : list Call :=
  drop (length (calls s)) (calls s').

(** ** Vocabulary of the properties *)

Abbreviation ids data := (vehicleId <$> data).

(** The key set of the registry. *)
Abbreviation keyset s :=
  (list_to_set (JSMap.keys (markerMap s)) : gset string).

(** The color the loop body computes for a vehicle id. *)
Definition color_of (knownIds : gset string) (vid : string) : string :=
  if bool_decide (vid ∈ knownIds) then ACCENT_COLOR else NEUTRAL_COLOR.

(** What the loop body compares and caches of a position: the coordinates,
    [v.heading ?? 0] and [v.speed]. *)
Definition rendered (v : VehiclePosition)
  : number * number * number * option number :=
  (lat v, lng v, default 0 (heading v), speed v).

(** Positions that share a vehicle id agree on what is rendered. *)
Definition consistent (data : list VehiclePosition) : Prop :=
  ∀ u v, u ∈ data → v ∈ data → vehicleId u = vehicleId v →
         rendered u = rendered v.

(** The registry entry of [v.vehicleId] shows [v] as a vehicle of color
    [color]. *)
Definition synced (color : string) (v : VehiclePosition) (e : MarkerEntry)
  : Prop :=
  latlng (entry_marker e) = mkLatLng (lat v) (lng v)
  ∧ entry_heading e = default 0 (heading v)
  ∧ entry_speed e = speed v
  ∧ entry_color e = color.

(** The icon of an entry's marker is the one of its cached attributes. *)
Definition coherent (e : MarkerEntry) : Prop :=
  icon (entry_marker e) = makeVehicleIcon (entry_heading e) (entry_color e).

(** Well-formed states: what every operation of the composable preserves
    from [initial] on. *)
Record wf (s : State) : Prop := mkWf {
  wf_keys     : NoDup (JSMap.keys (markerMap s));
  wf_coherent : Forall (λ kv, coherent kv.2) (markerMap s)
}.

(** The test [ll.lat !== v.lat || ll.lng !== v.lng] of the loop body, and the
    [setLatLng] call it guards. *)
Definition position_changed (e : MarkerEntry) (v : VehiclePosition) : bool :=
  strict_ne (ll_lat (latlng (entry_marker e))) (lat v)
  || strict_ne (ll_lng (latlng (entry_marker e))) (lng v).

Definition move_calls (e : MarkerEntry) (v : VehiclePosition) : list Call :=
  if position_changed e v
  then [SetLatLng (stamp (entry_marker e)) (mkLatLng (lat v) (lng v))]
  else [].

(** The parts of the state the reconcile loops never write. *)
Definition same_frame (s s' : State) : Prop :=
  vehicles s' = vehicles s
  ∧ registeredVehicles s' = registeredVehicles s
  ∧ selectedVehicleId s' = selectedVehicleId s
  ∧ visible s' = visible s
  ∧ trackPolyline s' = trackPolyline s
  ∧ timer s' = timer s
  ∧ mapReady s' = mapReady s
  ∧ mapPolylines s' = mapPolylines s.

(** Sample positions for the concrete instances below. *)
Definition sample_A : VehiclePosition :=
  mkVehiclePosition "A" 1 1 (Some 12) (Some 90) "2024-01-01T00:00:00Z".
Definition sample_B : VehiclePosition :=
  mkVehiclePosition "B" 2 2 None None "2024-01-01T00:00:05Z".

(** The stamps of the markers the registry refers to. *)
Definition stamps (m : JSMap.t MarkerEntry) : list nat :=
  (λ kv, stamp (entry_marker kv.2)) <$> m.

(** The layer group holds exactly the markers of the registry, which are
    distinct objects created before now. *)
Record layer_ok (s : State) : Prop := mkLayerOk {
  lo_distinct : NoDup (stamps (markerMap s));
  lo_created  : Forall (λ n, (n < nextStamp s)%nat) (stamps (markerMap s));
  lo_layer    : markerLayer s = list_to_set (stamps (markerMap s))
}.

(** The system once the component has unmounted while the fetches issued
    by [start] are still in flight. *)
Definition sample_unmounted : System :=
  mkSystem (drop_map (stop (start 8000 initial))) 1 0 1 true.

(** Two track histories. *)
Definition sample_track_A : list VehiclePosition :=
  [mkVehiclePosition "A" 1 1 None None "2024-01-01T00:00:00Z";
   mkVehiclePosition "A" 1 2 None None "2024-01-01T00:01:00Z"].
Definition sample_track_B : list VehiclePosition :=
  [mkVehiclePosition "B" 5 5 None None "2024-01-01T00:00:00Z";
   mkVehiclePosition "B" 6 5 None None "2024-01-01T00:01:00Z";
   mkVehiclePosition "B" 7 5 None None "2024-01-01T00:02:00Z"].

(** The sequential discipline of the track: what is on the map is the
    polyline [trackPolyline] refers to, or nothing. *)
Definition single_track (s : State) : Prop :=
  mapPolylines s = []
  ∨ ∃ pl, mapPolylines s = [pl] ∧ trackPolyline s = Some pl.

(** A snapshot that reports vehicle [A] twice, with two headings. *)
Definition sample_duplicates : list VehiclePosition :=
  [mkVehiclePosition "A" 1 1 None (Some 0) "2024-01-01T00:00:00Z";
   mkVehiclePosition "A" 1 1 None (Some 90) "2024-01-01T00:00:05Z"].

(** ** Vocabulary of the further properties *)

(** What is on display: while the layer is hidden there is no marker, no
    layer group on the map; and every marker belongs to a vehicle of the
    exposed [vehicles]. *)
Definition display_inv (s : State) : Prop :=
  (visible s = false →
   markerMap s = [] ∧ markerLayer s = ∅ ∧ hasMarkerLayer s = false)
  ∧ (∀ vid, vid ∈ JSMap.keys (markerMap s) → vid ∈ ids (vehicles s)).




(** Two snapshots that report the same vehicles, in the same order, with the
    same coordinates, heading (null read as 0) and speed; [time] and the
    difference between a null and a zero heading are free. *)
Definition same_rendering (data data' : list VehiclePosition) : Prop :=
  Forall2 (λ u v, vehicleId u = vehicleId v ∧ rendered u = rendered v)
    data data'.

(** The system after [start], a first snapshot, hiding the layer and a
    second snapshot. *)
Definition sample_hidden : System :=
  mkSystem
    (refresh_resume (Ok [sample_A])
       (toggleVisibility
          (refresh (Ok [sample_A; sample_B]) (start 8000 initial))))
    0 0 1 false.


(** [sample_A] as reported five seconds later, with nothing but the
    timestamp changed. *)
Definition sample_A_later : VehiclePosition :=
  mkVehiclePosition "A" 1 1 (Some 12) (Some 90) "2024-01-01T00:00:05Z".

(** The marker identity of an entry: what [L.marker] and the two [bind]
    calls fixed when it was created. *)
Definition same_marker (e e' : MarkerEntry) : Prop :=
  stamp (entry_marker e') = stamp (entry_marker e)
  ∧ tooltip (entry_marker e') = tooltip (entry_marker e)
  ∧ onClick (entry_marker e') = onClick (entry_marker e)
  ∧ zIndexOffset (entry_marker e') = zIndexOffset (entry_marker e).

(** The system after [start] and a first snapshot of two vehicles. *)
Definition sample_running : System :=
  mkSystem (refresh (Ok [sample_A; sample_B]) (start 8000 initial))
    0 0 1 false.

(** The marker of an entry registered under [k] names [k]: its tooltip, its
    click handler and its popup are those of vehicle [k], and it has the
    z-index offset of a vehicle marker. *)
Definition bound_to (k : string) (e : MarkerEntry) : Prop :=
  tooltip (entry_marker e) = Some k
  ∧ onClick (entry_marker e) = Some k
  ∧ zIndexOffset (entry_marker e) = 500
  ∧ ∃ p, popup (entry_marker e) = Some p ∧ popup_vehicleId p = k.

(** ** The viewer's vehicle lists ([DVPMapViewer.vue])

    The viewer computes [knownIds] with the expression [refresh] uses, so
    [knownIds_of] stands for both. *)

(** [registeredVehicles.value.find(rv => rv.vehicleId === vid)] *)
Definition find_registered (vid : string) (rvs : list RegisteredVehicle)
  : option RegisteredVehicle :=
  List.find (fun rv => bool_decide (rv_vehicleId rv = vid)) rvs.

(** [knownVehiclesWithGps]: the positions of registered vehicles, each with
    [name] added.  [find(...)!.name] throws when [find] returns undefined:
    the result is then [None]. *)
Definition knownVehiclesWithGps (s : State)
  : option (list (VehiclePosition * string)) :=
  mapM (fun v =>
          match find_registered (vehicleId v) (registeredVehicles s) with
          | Some rv => Some (v, rv_name rv)
          | None => None
          end)
    (filter (fun v => vehicleId v ∈ knownIds_of s) (vehicles s)).

(** [unknownVehiclesWithGps] *)
Definition unknownVehiclesWithGps (s : State) : list VehiclePosition :=
  filter (fun v => ¬ vehicleId v ∈ knownIds_of s) (vehicles s).

(** A state with one registered vehicle and the snapshot of two. *)
Definition sample_listed : State :=
  refresh (Ok [sample_A; sample_B])
    (fetchRegisteredVehicles_resume
       (Ok [mkRegisteredVehicle 7 "A" "Reach stacker" None None
              "2024-01-01T00:00:00Z"]) initial).

(** ** The viewer's mock GPS tool ([DVPMapViewer.vue])

    The tool keeps a pending point, shown by a pending marker, until it is
    saved or cancelled.  The heading it sends is floating-point
    trigonometry on two points; it is a parameter [bearing] of
    [saveMockPoint_begin]. *)

(** What the tool does to its surroundings, oldest first. *)
Inductive ViewerCall :=
| SetCursor (style : string)        (* mapContainer.value.style.cursor = *)
| MapOnClick                        (* map.on('click', mockClickHandler) *)
| MapOffClick                       (* map.off('click', mockClickHandler) *)
| ClosePopup                        (* map.closePopup() *)
| ResetHighlight                    (* resetHighlight() *)
| PendingRemove (st : nat)          (* pendingMarker.remove() *)
| NewPendingMarker (st : nat) (ll : LatLng)
| PendingAddTo (st : nat)
| ConsoleError.

Record Viewer := mkViewer {
  composable     : State;               (* the tracking state and the map *)
  container      : bool;                (* mapContainer.value is not null *)
  mockMode       : bool;
  mockVehicleId  : string;
  mockSpeed      : number;
  mockPointCount : number;
  lastMockPoints : gmap string LatLng;
  pendingPoint   : option LatLng;
  pendingMarker  : option nat;          (* by its stamp *)
  pendingOnMap   : list nat;            (* pending markers on the map *)
  viewerCalls    : list ViewerCall
}.

(** The viewer when it is mounted. *)
Definition mounted : Viewer :=
  mkViewer initial true false "TRK-001" 20 0 ∅ None None [] [].

(** The body of the POST request. *)
Record MockPoint := mkMockPoint {
  mp_vehicleId : string;
  mp_lat       : number;
  mp_lng       : number;
  mp_speed     : number;
  mp_heading   : option number
}.

(** What a request that is not read with [json()] can yield. *)
Inductive Reply :=
| NoReply              (* fetch threw *)
| Replied (ok : bool). (* a response, with its [res.ok] *)

Definition vlog (cs : list ViewerCall) (w : Viewer) : Viewer :=
  mkViewer (composable w) (container w) (mockMode w) (mockVehicleId w)
    (mockSpeed w) (mockPointCount w) (lastMockPoints w) (pendingPoint w)
    (pendingMarker w) (pendingOnMap w) (viewerCalls w ++ cs).

(** [pendingMarker?.remove()] *)
Definition remove_pending (w : Viewer) : Viewer :=
  match pendingMarker w with
  | Some st =>
      mkViewer (composable w) (container w) (mockMode w) (mockVehicleId w)
        (mockSpeed w) (mockPointCount w) (lastMockPoints w) (pendingPoint w)
        (pendingMarker w) (filter (fun n => n ≠ st) (pendingOnMap w))
        (viewerCalls w ++ [PendingRemove st])
  | None => w
  end.

(** [pendingMarker = null; pendingPoint.value = null] *)
Definition forget_pending (w : Viewer) : Viewer :=
  mkViewer (composable w) (container w) (mockMode w) (mockVehicleId w)
    (mockSpeed w) (mockPointCount w) (lastMockPoints w) None None
    (pendingOnMap w) (viewerCalls w).

Definition cancelMockPoint (w : Viewer) : Viewer :=
  forget_pending (remove_pending w).

Definition with_mockMode (b : bool) (w : Viewer) : Viewer :=
  mkViewer (composable w) (container w) b (mockVehicleId w)
    (mockSpeed w) (mockPointCount w) (lastMockPoints w) (pendingPoint w)
    (pendingMarker w) (pendingOnMap w) (viewerCalls w).

Definition toggleMockMode (w : Viewer) : Viewer :=
  if negb (mockMode w) then
    let w1 := with_mockMode true w in
    let w2 := if container w1 then vlog [SetCursor "crosshair"] w1 else w1 in
    if mapReady (composable w2) then vlog [MapOnClick] w2 else w2
  else
    let w1 := with_mockMode false (cancelMockPoint w) in
    let w2 := if container w1 then vlog [SetCursor ""] w1 else w1 in
    if mapReady (composable w2) then vlog [MapOffClick] w2 else w2.

(** [mockClickHandler(e)], with [ll] for [e.latlng].  Without a map
    [addTo(map!)] throws: the marker is made but neither [pendingMarker]
    nor [pendingPoint] is assigned. *)
Definition mockClickHandler (ll : LatLng) (w : Viewer) : Viewer :=
  let w1 := if mapReady (composable w) then vlog [ClosePopup] w else w in
  let w2 := remove_pending (vlog [ResetHighlight] w1) in
  let st := nextStamp (composable w2) in
  let c := with_nextStamp (S st) (composable w2) in
  if mapReady (composable w2) then
    mkViewer c (container w2) (mockMode w2) (mockVehicleId w2)
      (mockSpeed w2) (mockPointCount w2) (lastMockPoints w2) (Some ll)
      (Some st) (pendingOnMap w2 ++ [st])
      (viewerCalls w2 ++ [NewPendingMarker st ll; PendingAddTo st])
  else
    mkViewer c (container w2) (mockMode w2) (mockVehicleId w2)
      (mockSpeed w2) (mockPointCount w2) (lastMockPoints w2)
      (pendingPoint w2) (pendingMarker w2) (pendingOnMap w2)
      (viewerCalls w2 ++ [NewPendingMarker st ll]).

(** [saveMockPoint()] up to its [await]: the state, and the body of the
    request when one is sent. *)
Definition saveMockPoint_begin (bearing : LatLng → LatLng → number)
    (w : Viewer) : Viewer * option MockPoint :=
  match pendingPoint w with
  | None => (w, None)
  | Some ll =>
      let vehicleId := mockVehicleId w in
      let heading :=
        match lastMockPoints w !! vehicleId with
        | Some prev => Some (bearing prev ll)
        | None => None
        end in
      let w1 :=
        mkViewer (composable w) (container w) (mockMode w) (mockVehicleId w)
          (mockSpeed w) (mockPointCount w)
          (<[vehicleId := ll]> (lastMockPoints w)) (pendingPoint w)
          (pendingMarker w) (pendingOnMap w) (viewerCalls w) in
      (forget_pending (remove_pending w1),
       Some (mkMockPoint vehicleId (ll_lat ll) (ll_lng ll) (mockSpeed w)
               heading))
  end.

(** The continuation of [saveMockPoint]: the state, and whether
    [refreshVehicles()] is called. *)
Definition saveMockPoint_resume (r : Reply) (w : Viewer) : Viewer * bool :=
  match r with
  | Replied true =>
      (mkViewer (composable w) (container w) (mockMode w) (mockVehicleId w)
         (mockSpeed w) (mockPointCount w + 1) (lastMockPoints w)
         (pendingPoint w) (pendingMarker w) (pendingOnMap w)
         (viewerCalls w),
       true)
  | Replied false => (w, false)
  | NoReply => (vlog [ConsoleError] w, false)
  end.

(** [clearMockData()] up to its first [await], given the answer to
    [window.confirm]: the state, and the vehicle id of the DELETE request
    when one is sent. *)
Definition clearMockData_begin (confirmed : bool) (w : Viewer)
  : Viewer * option string :=
  if confirmed then (cancelMockPoint w, Some (mockVehicleId w))
  else (w, None).

(** The continuation of [clearMockData].  It has no [try]: when the fetch
    throws nothing more runs; it does not read [res.ok]. *)
Definition clearMockData_resume (r : Reply) (w : Viewer) : Viewer * bool :=
  match r with
  | Replied _ =>
      (mkViewer (composable w) (container w) (mockMode w) (mockVehicleId w)
         (mockSpeed w) 0 (delete (mockVehicleId w) (lastMockPoints w))
         (pendingPoint w) (pendingMarker w) (pendingOnMap w)
         (viewerCalls w),
       true)
  | NoReply => (w, false)
  end.

(** The user edits the vehicle id or the speed of the tool. *)
Definition edit_mock (vehicleId : string) (spd : number) (w : Viewer)
  : Viewer :=
  mkViewer (composable w) (container w) (mockMode w) vehicleId spd
    (mockPointCount w) (lastMockPoints w) (pendingPoint w)
    (pendingMarker w) (pendingOnMap w) (viewerCalls w).

(** The pending point and the pending marker go together, and the map
    shows no pending marker but the one [pendingMarker] refers to. *)
Definition pending_inv (w : Viewer) : Prop :=
  (pendingPoint w = None ↔ pendingMarker w = None)
  ∧ (pendingOnMap w = []
     ∨ ∃ st, pendingOnMap w = [st] ∧ pendingMarker w = Some st).

(** A heading function for the concrete instances. *)
Definition sample_bearing (p q : LatLng) : number :=
  (ll_lat q - ll_lat p) + (ll_lng q - ll_lng p).

(** * Properties *)

(** ** The [Map] operations *)

Section JSMapFacts.
Context {V : Type}.
Implicit Types (m : JSMap.t V) (k : string) (v : V).

Lemma get_None_keys k m : JSMap.get k m = None ↔ k ∉ JSMap.keys m.
Proof.
  induction m as [|[k' v'] m IH]; simpl.
  - split; [intros _; apply not_elem_of_nil | done].
  - rewrite not_elem_of_cons. destruct (decide (k = k')) as [->|Hne].
    + split; [done | by intros [? _]].
    + rewrite IH. split; [by split | by intros [_ ?]].
Qed.

Lemma get_Some_keys k m v : JSMap.get k m = Some v → k ∈ JSMap.keys m.
Proof.
  intros H. destruct (decide (k ∈ JSMap.keys m)) as [|Hn]; [done|].
  apply get_None_keys in Hn. congruence.
Qed.

Lemma get_Some_elem k m v : JSMap.get k m = Some v → (k, v) ∈ m.
Proof.
  induction m as [|[k' v'] m IH]; simpl; [done|].
  destruct (decide (k = k')) as [->|]; intros H.
  - injection H as ->. apply list_elem_of_here.
  - apply list_elem_of_further; auto.
Qed.

Lemma get_set_eq k v m : JSMap.get k (JSMap.set k v m) = Some v.
Proof.
  induction m as [|[k' v'] m IH]; simpl.
  - by rewrite decide_True.
  - destruct (decide (k = k')); simpl; [by rewrite decide_True|].
    by rewrite decide_False.
Qed.

Lemma get_set_ne k k' v m :
  k ≠ k' → JSMap.get k' (JSMap.set k v m) = JSMap.get k' m.
Proof.
  intros Hne. induction m as [|[k0 v0] m IH]; simpl.
  - by rewrite decide_False.
  - destruct (decide (k = k0)) as [->|]; simpl.
    + by rewrite !decide_False.
    + destruct (decide (k' = k0)); [done | apply IH].
Qed.

Lemma set_same k v m : JSMap.get k m = Some v → JSMap.set k v m = m.
Proof.
  induction m as [|[k' v'] m IH]; simpl; [done|].
  destruct (decide (k = k')) as [->|]; intros H.
  - by injection H as ->.
  - by rewrite IH.
Qed.

Lemma keys_set_present k v m :
  k ∈ JSMap.keys m → JSMap.keys (JSMap.set k v m) = JSMap.keys m.
Proof.
  induction m as [|[k' v'] m IH]; simpl.
  - intros H. by apply elem_of_nil in H.
  - destruct (decide (k = k')) as [->|]; [done|].
    intros H. apply elem_of_cons in H as [?|H]; [done|].
    change (k' :: JSMap.keys (JSMap.set k v m) = k' :: JSMap.keys m).
    by rewrite IH.
Qed.

Lemma keys_set_absent k v m :
  k ∉ JSMap.keys m → JSMap.keys (JSMap.set k v m) = JSMap.keys m ++ [k].
Proof.
  induction m as [|[k' v'] m IH]; simpl; [done|].
  rewrite not_elem_of_cons. intros [Hne H].
  rewrite decide_False by done.
  change (k' :: JSMap.keys (JSMap.set k v m) = k' :: JSMap.keys m ++ [k]).
  by rewrite IH.
Qed.

Lemma keys_set_set k v m :
  list_to_set (JSMap.keys (JSMap.set k v m))
  =@{gset string} {[k]} ∪ list_to_set (JSMap.keys m).
Proof.
  destruct (decide (k ∈ JSMap.keys m)).
  - rewrite keys_set_present by done. set_solver.
  - rewrite keys_set_absent by done. set_solver.
Qed.

Lemma keys_set_NoDup k v m :
  NoDup (JSMap.keys m) → NoDup (JSMap.keys (JSMap.set k v m)).
Proof.
  intros H. destruct (decide (k ∈ JSMap.keys m)).
  - by rewrite keys_set_present.
  - rewrite keys_set_absent by done.
    apply NoDup_app. split; [done|]. split; [|apply NoDup_singleton].
    intros x Hx Hx'. apply list_elem_of_singleton in Hx'. by subst.
Qed.

Lemma keys_filter_NoDup (P : string * V → Prop) `{∀ x, Decision (P x)} m :
  NoDup (JSMap.keys m) → NoDup (JSMap.keys (filter P m)).
Proof.
  unfold JSMap.keys. induction m as [|kv m IH]; [done|].
  rewrite fmap_cons, NoDup_cons. intros [Hn Hd].
  rewrite filter_cons. destruct (decide (P kv)); [|by auto].
  rewrite fmap_cons. apply NoDup_cons. split; [|by auto].
  intros Hin. apply Hn. apply list_elem_of_fmap in Hin as (y & -> & Hy).
  apply list_elem_of_filter in Hy as [_ Hy].
  apply list_elem_of_fmap. eauto.
Qed.

Lemma get_filter_keys (Q : string → Prop) `{∀ x, Decision (Q x)} k m :
  JSMap.get k (filter (λ kv, Q kv.1) m)
  = if decide (Q k) then JSMap.get k m else None.
Proof.
  induction m as [|[k' v'] m IH].
  - by destruct (decide (Q k)).
  - rewrite filter_cons. cbn [fst].
    destruct (decide (Q k')) as [Hq|Hq]; cbn [JSMap.get]; rewrite IH.
    + destruct (decide (k = k')) as [->|]; [|done].
      by destruct (decide (Q k')).
    + destruct (decide (k = k')) as [->|]; [|done].
      by destruct (decide (Q k')).
Qed.

Lemma filter_all (P : string * V → Prop) `{∀ x, Decision (P x)} m :
  Forall P m → filter P m = m.
Proof.
  induction 1 as [|x l Hx Hl IH]; [done|].
  rewrite filter_cons, decide_True by done. by rewrite IH.
Qed.

Lemma filter_iff_on (P Q : string * V → Prop)
    `{∀ x, Decision (P x), ∀ x, Decision (Q x)} m :
  Forall (λ x, P x ↔ Q x) m → filter P m = filter Q m.
Proof.
  induction 1 as [|x l Hx Hl IH]; [done|].
  rewrite !filter_cons, IH. destruct (decide (P x)), (decide (Q x)); tauto.
Qed.
End JSMapFacts.

(** ** The reconcile pass: registry keys *)

Ltac reconcile_one_cases :=
  unfold reconcile_one, create_entry;
  match goal with
  | |- context [match JSMap.get ?k ?m with _ => _ end] =>
      destruct (JSMap.get k m) eqn:?
  end;
  [ match goal with
    | |- context [update_entry ?v ?h ?c ?e] =>
        destruct (update_entry v h c e) eqn:?
    end
  | ]; cbn [markerMap markerLayer nextStamp calls log with_markerMap
            with_markerLayer with_nextStamp vehicles registeredVehicles
            selectedVehicleId visible trackPolyline timer mapReady
            hasMarkerLayer mapPolylines].

Lemma reconcile_loop_cons K v data s seen :
  reconcile_loop K (v :: data) (s, seen)
  = reconcile_loop K data (reconcile_one K s v, {[vehicleId v]} ∪ seen).
Proof. reflexivity. Qed.

Lemma reconcile_loop_snoc K v data acc :
  reconcile_loop K (data ++ [v]) acc
  = (reconcile_one K (reconcile_loop K data acc).1 v,
     {[vehicleId v]} ∪ (reconcile_loop K data acc).2).
Proof.
  unfold reconcile_loop. rewrite fold_left_app. simpl.
  by destruct (fold_left _ data acc).
Qed.

Lemma reconcile_one_keys K s v :
  keyset (reconcile_one K s v) = {[vehicleId v]} ∪ keyset s.
Proof. reconcile_one_cases; apply keys_set_set. Qed.

Lemma reconcile_loop_seen K data s seen :
  (reconcile_loop K data (s, seen)).2 = list_to_set (ids data) ∪ seen.
Proof.
  revert s seen. induction data as [|v data IH]; intros s seen.
  - simpl. set_solver.
  - rewrite reconcile_loop_cons, IH. set_solver.
Qed.

Lemma reconcile_loop_keys K data s seen :
  keyset (reconcile_loop K data (s, seen)).1
  = list_to_set (ids data) ∪ keyset s.
Proof.
  revert s seen. induction data as [|v data IH]; intros s seen.
  - simpl. set_solver.
  - rewrite reconcile_loop_cons, IH, reconcile_one_keys. set_solver.
Qed.

Lemma remove_one_markerMap seen s kv :
  markerMap (remove_one seen s kv)
  = filter (λ e, e.1 ∈ seen ∨ e.1 ≠ kv.1) (markerMap s).
Proof.
  unfold remove_one. case_bool_decide as Hk; simpl.
  - symmetry. apply filter_all, Forall_forall. intros e _.
    destruct (decide (e.1 = kv.1)) as [->|]; auto.
  - unfold JSMap.delete. apply list_filter_iff. intros e.
    split; [auto|]. intros [He|He]; [|done]. intros Heq. apply Hk.
    by rewrite <- Heq.
Qed.

Lemma remove_fold_markerMap seen l s :
  markerMap (fold_left (remove_one seen) l s)
  = filter (λ e, e.1 ∈ seen ∨ e.1 ∉ l.*1) (markerMap s).
Proof.
  revert s. induction l as [|kv l IH]; intros s.
  - simpl. symmetry. apply filter_all, Forall_forall. intros e _.
    right. apply not_elem_of_nil.
  - cbn [fold_left]. rewrite IH, remove_one_markerMap, list_filter_filter.
    apply list_filter_iff. intros e. rewrite fmap_cons, not_elem_of_cons.
    tauto.
Qed.

(** The removal loop keeps exactly the entries whose id was seen. *)
Lemma remove_unseen_markerMap seen s :
  markerMap (remove_unseen seen s)
  = filter (λ e, e.1 ∈ seen) (markerMap s).
Proof.
  unfold remove_unseen. rewrite remove_fold_markerMap.
  apply filter_iff_on, Forall_forall. intros e He. split; [|auto].
  intros [?|Hn]; [done|]. destruct Hn. apply list_elem_of_fmap. eauto.
Qed.

Lemma attach_layer_markerMap s : markerMap (attach_layer s) = markerMap s.
Proof. unfold attach_layer. by destruct (hasMarkerLayer s). Qed.

Lemma reconcile_markerMap data s :
  markerMap (reconcile data s)
  = filter (λ e, e.1 ∈ (list_to_set (ids data) : gset string))
      (markerMap (reconcile_loop (knownIds_of s) data (s, ∅)).1).
Proof.
  unfold reconcile.
  pose proof (reconcile_loop_seen (knownIds_of s) data s ∅) as Hseen.
  destruct (reconcile_loop (knownIds_of s) data (s, ∅)) as [s1 seen].
  simpl in *. subst seen.
  rewrite attach_layer_markerMap, remove_unseen_markerMap.
  apply list_filter_iff. set_solver.
Qed.

Lemma reconcile_keys data s : keyset (reconcile data s) = list_to_set (ids data).
Proof.
  rewrite reconcile_markerMap.
  pose proof (reconcile_loop_keys (knownIds_of s) data s ∅) as Hk.
  apply set_eq. intros k. rewrite elem_of_list_to_set. unfold JSMap.keys.
  rewrite list_elem_of_fmap. split.
  - intros (e & -> & He). by apply list_elem_of_filter in He as [? _].
  - intros Hin.
    assert (k ∈ keyset (reconcile_loop (knownIds_of s) data (s, ∅)).1) as Hk'
      by (rewrite Hk; set_solver).
    apply elem_of_list_to_set, list_elem_of_fmap in Hk' as (e & -> & He).
    exists e. split; [done|]. by apply list_elem_of_filter.
Qed.

Lemma refresh_resume_keys data s :
  visible s = true →
  keyset (refresh_resume (Ok data) s) = list_to_set (ids data).
Proof.
  intros Hv. unfold refresh_resume. cbn [visible with_vehicles].
  rewrite Hv. cbn [negb]. apply reconcile_keys.
Qed.

Lemma refresh_keys data s :
  visible s = true → mapReady s = true →
  keyset (refresh (Ok data) s) = list_to_set (ids data).
Proof.
  intros Hv Hm. unfold refresh, refresh_begin. rewrite Hm.
  by apply refresh_resume_keys.
Qed.

(** C1. After a [refresh] whose fetch succeeds, with the layer visible and a
    map handle, the key set of the marker registry is exactly the set of
    vehicle ids of the snapshot: an id is a key if and only if it occurs in
    the snapshot, and the empty snapshot empties the registry.  The key set
    is that of the snapshot also after a continuation that finds the layer
    visible when its fetch settles. *)
Theorem refresh_registry_keys (s : State) (data : list VehiclePosition) :
  visible s = true → mapReady s = true →
  keyset (refresh (Ok data) s) = list_to_set (ids data)
  ∧ keyset (refresh_resume (Ok data) s) = list_to_set (ids data)
  ∧ (∀ vid, vid ∈ JSMap.keys (markerMap (refresh (Ok data) s))
            ↔ vid ∈ ids data)
  ∧ (data = [] → markerMap (refresh (Ok data) s) = []).
Proof.
  intros Hv Hm. pose proof (refresh_keys data s Hv Hm) as Hk.
  split; [done|]. split; [by apply refresh_resume_keys|]. split.
  - intros vid.
    rewrite <- (elem_of_list_to_set (C := gset string) vid (JSMap.keys _)).
    rewrite Hk. apply elem_of_list_to_set.
  - intros ->.
    destruct (markerMap (refresh (Ok []) s)) as [|[k e] m]; [done|].
    exfalso. apply (not_elem_of_empty (C := gset string) k).
    change (k ∈ (list_to_set (ids []) : gset string)).
    rewrite <- Hk. apply elem_of_list_to_set, list_elem_of_here.
Qed.

Lemma refresh_registry_keys_witness :
  keyset (refresh (Ok [sample_A; sample_B]) initial)
  = list_to_set (ids [sample_A; sample_B])
  ∧ keyset (refresh_resume (Ok [sample_A; sample_B]) initial)
    = list_to_set (ids [sample_A; sample_B])
  ∧ (∀ vid,
       vid ∈ JSMap.keys
               (markerMap (refresh (Ok [sample_A; sample_B]) initial))
       ↔ vid ∈ ids [sample_A; sample_B])
  ∧ ([sample_A; sample_B] = [] →
     markerMap (refresh (Ok [sample_A; sample_B]) initial) = []).
Proof.
  apply (refresh_registry_keys initial [sample_A; sample_B]); reflexivity.
Defined.

(** C5. A [refresh] whose fetch fails (the request is rejected, the response
    is not a success, or its body cannot be read) returns the state it was
    called in: [vehicles], the registry and everything else are untouched;
    the same holds for a continuation resumed with a failed fetch. *)
Theorem refresh_failed_fetch (s : State) :
  refresh Rejected s = s ∧ refresh NotOk s = s ∧ refresh BadBody s = s
  ∧ refresh_resume Rejected s = s ∧ refresh_resume NotOk s = s
  ∧ refresh_resume BadBody s = s.
Proof.
  unfold refresh, refresh_resume. by destruct (refresh_begin s).
Qed.

(** C6. With the layer hidden, a [refresh] with a map handle and a successful
    fetch stores the snapshot in [vehicles] and changes nothing else: the
    registry, the layer group, the map and the log of Leaflet calls are those
    of the state it was called in.  The same holds of a continuation that
    finds the layer hidden when its fetch settles. *)
Theorem refresh_hidden (s : State) (data : list VehiclePosition) :
  visible s = false → mapReady s = true →
  refresh (Ok data) s = with_vehicles data s
  ∧ refresh_resume (Ok data) s = with_vehicles data s
  ∧ vehicles (refresh (Ok data) s) = data
  ∧ markerMap (refresh (Ok data) s) = markerMap s
  ∧ markerLayer (refresh (Ok data) s) = markerLayer s
  ∧ hasMarkerLayer (refresh (Ok data) s) = hasMarkerLayer s
  ∧ calls (refresh (Ok data) s) = calls s.
Proof.
  intros Hv Hm. unfold refresh, refresh_begin, refresh_resume.
  rewrite Hm. cbn [visible with_vehicles]. rewrite Hv. by cbn.
Qed.

Lemma refresh_hidden_witness :
  let s := toggleVisibility (refresh (Ok [sample_A]) initial) in
  refresh (Ok [sample_B]) s = with_vehicles [sample_B] s
  ∧ refresh_resume (Ok [sample_B]) s = with_vehicles [sample_B] s
  ∧ vehicles (refresh (Ok [sample_B]) s) = [sample_B]
  ∧ markerMap (refresh (Ok [sample_B]) s) = markerMap s
  ∧ markerLayer (refresh (Ok [sample_B]) s) = markerLayer s
  ∧ hasMarkerLayer (refresh (Ok [sample_B]) s) = hasMarkerLayer s
  ∧ calls (refresh (Ok [sample_B]) s) = calls s.
Proof.
  apply (refresh_hidden
           (toggleVisibility (refresh (Ok [sample_A]) initial)) [sample_B]);
    reflexivity.
Defined.

(** ** One iteration of the loop on an existing entry *)

Lemma log_nil s : log [] s = s.
Proof. destruct s. unfold log. simpl. by rewrite app_nil_r. Qed.

Lemma with_markerMap_same s : with_markerMap (markerMap s) s = s.
Proof. by destruct s. Qed.

Lemma with_vehicles_same s : with_vehicles (vehicles s) s = s.
Proof. by destruct s. Qed.

Lemma strict_ne_false {A : Type} `{EqDecision A} (a b : A) :
  strict_ne a b = false ↔ a = b.
Proof.
  unfold strict_ne. rewrite bool_decide_eq_false. split; [|by auto].
  intros Hnn. by destruct (decide (a = b)).
Qed.

Lemma strict_ne_true {A : Type} `{EqDecision A} (a b : A) :
  strict_ne a b = true ↔ a ≠ b.
Proof. unfold strict_ne. by rewrite bool_decide_eq_true. Qed.

Lemma reconcile_one_existing K s v e :
  JSMap.get (vehicleId v) (markerMap s) = Some e →
  reconcile_one K s v
  = log (update_entry v (default 0 (heading v)) (color_of K (vehicleId v)) e).2
      (with_markerMap
         (JSMap.set (vehicleId v)
            (update_entry v (default 0 (heading v))
               (color_of K (vehicleId v)) e).1
            (markerMap s)) s).
Proof.
  intros Hget. unfold reconcile_one, color_of. rewrite Hget.
  by destruct (update_entry _ _ _ e).
Qed.

Lemma reconcile_one_new K s v :
  JSMap.get (vehicleId v) (markerMap s) = None →
  reconcile_one K s v
  = create_entry v (default 0 (heading v)) (color_of K (vehicleId v)) s.
Proof. intros Hget. unfold reconcile_one, color_of. by rewrite Hget. Qed.

(** An entry that already shows [v] is left alone: no Leaflet call, no
    write. *)
Lemma update_entry_synced v c e :
  synced c v e → update_entry v (default 0 (heading v)) c e = (e, []).
Proof.
  intros (Hll & Hh & Hs & Hc). unfold update_entry.
  rewrite Hll. cbn [ll_lat ll_lng].
  rewrite (proj2 (strict_ne_false (lat v) (lat v)) eq_refl).
  rewrite (proj2 (strict_ne_false (lng v) (lng v)) eq_refl).
  rewrite (proj2 (strict_ne_false _ _) Hh), (proj2 (strict_ne_false _ _) Hs),
    (proj2 (strict_ne_false _ _) Hc).
  reflexivity.
Qed.

(** Whatever the entry was, after the update it shows [v]. *)
Lemma update_entry_syncs v c e :
  synced c v (update_entry v (default 0 (heading v)) c e).1.
Proof.
  unfold update_entry, synced.
  destruct (strict_ne (ll_lat (latlng (entry_marker e))) (lat v)) eqn:E1;
  destruct (strict_ne (ll_lng (latlng (entry_marker e))) (lng v)) eqn:E2;
  destruct (strict_ne (entry_heading e) (default 0 (heading v))) eqn:E3;
  destruct (strict_ne (entry_color e) c) eqn:E4;
  destruct (strict_ne (entry_speed e) (speed v)) eqn:E5;
  cbn;
  rewrite ?strict_ne_false in *;
  repeat split; try done;
  destruct (latlng (entry_marker e)); cbn in *; congruence.
Qed.

Lemma update_entry_stamp v h c e :
  stamp (entry_marker (update_entry v h c e).1) = stamp (entry_marker e).
Proof.
  unfold update_entry.
  by destruct (_ || _), (_ || _), (_ || _).
Qed.

Lemma reconcile_one_synced K s v e :
  JSMap.get (vehicleId v) (markerMap s) = Some e →
  synced (color_of K (vehicleId v)) v e →
  reconcile_one K s v = s.
Proof.
  intros Hget Hs. rewrite (reconcile_one_existing K s v e Hget).
  rewrite update_entry_synced by done. cbn [fst snd].
  by rewrite set_same, with_markerMap_same, log_nil.
Qed.

(** C3. For an existing registry entry and an incoming position of the same
    vehicle whose color is the cached one: if only the speed differs from the
    cached values, no icon is regenerated, the popup content is, and the
    cached speed is updated; if only the heading differs, the icon and the
    popup content are both regenerated and the cached heading and speed are
    those of the position; if neither heading, speed nor coordinates differ,
    the iteration changes nothing at all. *)
Theorem partial_change_minimality (K : gset string) (s : State)
    (v : VehiclePosition) (e : MarkerEntry) :
  JSMap.get (vehicleId v) (markerMap s) = Some e →
  entry_color e = color_of K (vehicleId v) →
  let s' := reconcile_one K s v in
  let st := stamp (entry_marker e) in
  let h := default 0 (heading v) in
  (entry_heading e = h → entry_speed e ≠ speed v →
     calls s' = calls s ++ move_calls e v
                ++ [SetPopupContent st (makeVehiclePopup v)]
     ∧ ∃ e', JSMap.get (vehicleId v) (markerMap s') = Some e'
             ∧ entry_speed e' = speed v
             ∧ entry_heading e' = entry_heading e
             ∧ entry_color e' = entry_color e
             ∧ icon (entry_marker e') = icon (entry_marker e))
  ∧ (entry_heading e ≠ h → entry_speed e = speed v →
     calls s' = calls s ++ move_calls e v
                ++ [SetIcon st (makeVehicleIcon h (entry_color e));
                    SetPopupContent st (makeVehiclePopup v)]
     ∧ ∃ e', JSMap.get (vehicleId v) (markerMap s') = Some e'
             ∧ entry_heading e' = h
             ∧ entry_speed e' = speed v
             ∧ entry_color e' = entry_color e
             ∧ icon (entry_marker e') = makeVehicleIcon h (entry_color e))
  ∧ (entry_heading e = h → entry_speed e = speed v →
     latlng (entry_marker e) = mkLatLng (lat v) (lng v) →
     s' = s).
Proof.
  intros Hget Hc s' st h. subst s' st h.
  split; [|split].
  - intros Hh Hs. rewrite (reconcile_one_existing K s v e Hget).
    cbn [calls log markerMap with_markerMap]. rewrite get_set_eq.
    unfold update_entry, move_calls, position_changed.
    rewrite (proj2 (strict_ne_false _ _) Hh), (proj2 (strict_ne_false _ _) Hc),
      (proj2 (strict_ne_true _ _) Hs).
    destruct (_ || _); cbn; (split; [done | eauto 10]).
  - intros Hh Hs. rewrite (reconcile_one_existing K s v e Hget).
    cbn [calls log markerMap with_markerMap]. rewrite get_set_eq.
    unfold update_entry, move_calls, position_changed.
    rewrite (proj2 (strict_ne_true _ _) Hh), (proj2 (strict_ne_false _ _) Hc),
      (proj2 (strict_ne_false _ _) Hs).
    destruct (_ || _); cbn; rewrite <- Hc; (split; [done | eauto 10]).
  - intros Hh Hs Hll. by apply (reconcile_one_synced K s v e).
Qed.

Lemma partial_change_minimality_witness :
  let K : gset string := ∅ in
  let s := refresh (Ok [sample_A]) initial in
  let v := mkVehiclePosition "A" 1 1 (Some 30) (Some 90) "later" in
  ∃ e, JSMap.get (vehicleId v) (markerMap s) = Some e
       ∧ calls (reconcile_one K s v)
         = calls s ++ move_calls e v
           ++ [SetPopupContent (stamp (entry_marker e)) (makeVehiclePopup v)].
Proof.
  eexists. split; [reflexivity|].
  refine (proj1 (proj1 (partial_change_minimality ∅
            (refresh (Ok [sample_A]) initial)
            (mkVehiclePosition "A" 1 1 (Some 30) (Some 90) "later")
            _ eq_refl eq_refl) eq_refl _)).
  discriminate.
Defined.

(** ** The loops: frame, other entries, established entries *)

Lemma same_frame_refl s : same_frame s s.
Proof. by repeat split. Qed.

Lemma same_frame_trans s1 s2 s3 :
  same_frame s1 s2 → same_frame s2 s3 → same_frame s1 s3.
Proof.
  unfold same_frame. intros (?&?&?&?&?&?&?&?) (?&?&?&?&?&?&?&?).
  repeat split; congruence.
Qed.

Lemma reconcile_one_frame K s v :
  same_frame s (reconcile_one K s v)
  ∧ hasMarkerLayer (reconcile_one K s v) = hasMarkerLayer s.
Proof. unfold same_frame. reconcile_one_cases; by repeat split. Qed.

Lemma reconcile_loop_frame K data s seen :
  same_frame s (reconcile_loop K data (s, seen)).1
  ∧ hasMarkerLayer (reconcile_loop K data (s, seen)).1 = hasMarkerLayer s.
Proof.
  revert s seen. induction data as [|v data IH]; intros s seen.
  - split; [apply same_frame_refl | done].
  - rewrite reconcile_loop_cons.
    destruct (IH (reconcile_one K s v) ({[vehicleId v]} ∪ seen)) as [Hf Hl].
    destruct (reconcile_one_frame K s v) as [Hf1 Hl1].
    split; [by eapply same_frame_trans | congruence].
Qed.

Lemma remove_one_frame seen s kv :
  same_frame s (remove_one seen s kv)
  ∧ hasMarkerLayer (remove_one seen s kv) = hasMarkerLayer s.
Proof.
  unfold remove_one. case_bool_decide; [|by repeat split].
  split; [apply same_frame_refl | done].
Qed.

Lemma remove_fold_frame seen l s :
  same_frame s (fold_left (remove_one seen) l s)
  ∧ hasMarkerLayer (fold_left (remove_one seen) l s) = hasMarkerLayer s.
Proof.
  revert s. induction l as [|kv l IH]; intros s.
  - split; [apply same_frame_refl | done].
  - cbn [fold_left]. destruct (IH (remove_one seen s kv)) as [Hf Hl].
    destruct (remove_one_frame seen s kv) as [Hf1 Hl1].
    split; [by eapply same_frame_trans | congruence].
Qed.

Lemma attach_layer_frame s :
  same_frame s (attach_layer s) ∧ hasMarkerLayer (attach_layer s) = true.
Proof.
  unfold attach_layer. destruct (hasMarkerLayer s) eqn:E; [|by repeat split].
  split; [apply same_frame_refl | done].
Qed.

Lemma reconcile_frame data s :
  same_frame s (reconcile data s) ∧ hasMarkerLayer (reconcile data s) = true.
Proof.
  unfold reconcile.
  pose proof (reconcile_loop_frame (knownIds_of s) data s ∅) as [Hf1 _].
  destruct (reconcile_loop (knownIds_of s) data (s, ∅)) as [s1 seen].
  cbn [fst] in Hf1.
  destruct (remove_fold_frame seen (markerMap s1) s1) as [Hf2 _].
  destruct (attach_layer_frame (remove_unseen seen s1)) as [Hf3 Hl].
  split; [|done].
  eapply same_frame_trans; [|exact Hf3]. by eapply same_frame_trans.
Qed.

Lemma reconcile_one_get_other K s v k :
  k ≠ vehicleId v →
  JSMap.get k (markerMap (reconcile_one K s v)) = JSMap.get k (markerMap s).
Proof. intros Hne. reconcile_one_cases; by rewrite get_set_ne. Qed.

Lemma reconcile_one_get_same K s v :
  ∃ e, JSMap.get (vehicleId v) (markerMap (reconcile_one K s v)) = Some e
       ∧ synced (color_of K (vehicleId v)) v e.
Proof.
  destruct (JSMap.get (vehicleId v) (markerMap s)) as [e|] eqn:Hget.
  - rewrite (reconcile_one_existing K s v e Hget).
    cbn [markerMap log with_markerMap]. rewrite get_set_eq.
    eexists. split; [done|]. apply update_entry_syncs.
  - rewrite (reconcile_one_new K s v Hget). unfold create_entry.
    cbn [markerMap log with_markerMap with_markerLayer].
    rewrite get_set_eq. eexists. split; [done|]. by repeat split.
Qed.

(** A property [R] of the entry of a position that each iteration
    establishes, and that positions with the same id share, holds after the
    loop for every position of the snapshot. *)
Lemma reconcile_loop_establishes K
    (R : VehiclePosition → MarkerEntry → Prop) data :
  (∀ s v, ∃ e,
      JSMap.get (vehicleId v) (markerMap (reconcile_one K s v)) = Some e
      ∧ R v e) →
  (∀ u v e, u ∈ data → v ∈ data → vehicleId u = vehicleId v →
            R v e → R u e) →
  ∀ s seen v, v ∈ data →
    ∃ e, JSMap.get (vehicleId v)
           (markerMap (reconcile_loop K data (s, seen)).1) = Some e
         ∧ R v e.
Proof.
  intros Hstep. induction data as [|w data IH] using rev_ind;
    intros Hcompat s seen v Hin.
  - by apply elem_of_nil in Hin.
  - rewrite reconcile_loop_snoc. cbn [fst].
    destruct (decide (vehicleId v = vehicleId w)) as [Heq|Hne].
    + destruct (Hstep (reconcile_loop K data (s, seen)).1 w) as (e & He & HR).
      exists e. rewrite Heq. split; [done|].
      apply (Hcompat v w e); [done | | done | done].
      apply elem_of_app. right. apply list_elem_of_here.
    + rewrite reconcile_one_get_other by done.
      apply IH.
      * intros u v' e Hu Hv'. apply Hcompat; apply elem_of_app; by left.
      * apply elem_of_app in Hin as [Hin|Hin]; [done|].
        apply list_elem_of_singleton in Hin. by subst.
Qed.

Lemma reconcile_get_seen data s k :
  k ∈ ids data →
  JSMap.get k (markerMap (reconcile data s))
  = JSMap.get k (markerMap (reconcile_loop (knownIds_of s) data (s, ∅)).1).
Proof.
  intros Hk. rewrite reconcile_markerMap.
  pose proof (get_filter_keys
                (λ k, k ∈ (list_to_set (ids data) : gset string)) k
                (markerMap (reconcile_loop (knownIds_of s) data (s, ∅)).1))
    as Hf.
  cbv beta in Hf. rewrite Hf.
  rewrite decide_True; [done|]. by apply elem_of_list_to_set.
Qed.

Lemma reconcile_establishes (R : VehiclePosition → MarkerEntry → Prop)
    data s :
  (∀ s' v, ∃ e,
      JSMap.get (vehicleId v)
        (markerMap (reconcile_one (knownIds_of s) s' v)) = Some e
      ∧ R v e) →
  (∀ u v e, u ∈ data → v ∈ data → vehicleId u = vehicleId v →
            R v e → R u e) →
  ∀ v, v ∈ data →
    ∃ e, JSMap.get (vehicleId v) (markerMap (reconcile data s)) = Some e
         ∧ R v e.
Proof.
  intros Hstep Hcompat v Hin.
  rewrite reconcile_get_seen by (apply list_elem_of_fmap; eauto).
  by apply reconcile_loop_establishes.
Qed.

(** ** A second pass over the same snapshot *)

Lemma reconcile_loop_fixed K data s seen :
  (∀ v, v ∈ data →
        ∃ e, JSMap.get (vehicleId v) (markerMap s) = Some e
             ∧ synced (color_of K (vehicleId v)) v e) →
  (reconcile_loop K data (s, seen)).1 = s.
Proof.
  revert seen. induction data as [|v data IH]; intros seen Hall; [done|].
  rewrite reconcile_loop_cons.
  destruct (Hall v) as (e & Hget & Hs); [apply list_elem_of_here|].
  rewrite (reconcile_one_synced K s v e Hget Hs).
  apply IH. intros u Hu. apply Hall. by apply list_elem_of_further.
Qed.

Lemma remove_fold_fixed seen l s :
  Forall (λ kv, kv.1 ∈ seen) l → fold_left (remove_one seen) l s = s.
Proof.
  induction 1 as [|kv l Hkv Hl IH]; [done|].
  cbn [fold_left]. unfold remove_one at 2. by rewrite bool_decide_true.
Qed.

Lemma reconcile_fixed data s :
  (∀ v, v ∈ data →
        ∃ e, JSMap.get (vehicleId v) (markerMap s) = Some e
             ∧ synced (color_of (knownIds_of s) (vehicleId v)) v e) →
  keyset s = list_to_set (ids data) →
  hasMarkerLayer s = true →
  reconcile data s = s.
Proof.
  intros Hall Hkeys Hl. unfold reconcile.
  pose proof (reconcile_loop_fixed (knownIds_of s) data s ∅ Hall) as H1.
  pose proof (reconcile_loop_seen (knownIds_of s) data s ∅) as H2.
  destruct (reconcile_loop (knownIds_of s) data (s, ∅)) as [s1 seen].
  cbn [fst snd] in *. subst s1 seen.
  unfold remove_unseen. rewrite remove_fold_fixed.
  - unfold attach_layer. by rewrite Hl.
  - apply Forall_forall. intros kv Hkv.
    apply elem_of_union_l. rewrite <- Hkeys.
    apply elem_of_list_to_set, list_elem_of_fmap. eauto.
Qed.

Lemma synced_rendered c u v e :
  rendered u = rendered v → synced c v e → synced c u e.
Proof.
  unfold rendered, synced. intros Hr (? & ? & ? & ?).
  injection Hr as -> -> -> ->. done.
Qed.

Lemma knownIds_of_frame s s' : same_frame s s' → knownIds_of s' = knownIds_of s.
Proof. intros (_ & Hr & _). unfold knownIds_of. by rewrite Hr. Qed.

(** After a reconcile of a consistent snapshot every position finds its
    entry showing it. *)
Lemma reconcile_synced data s :
  consistent data →
  ∀ v, v ∈ data →
    ∃ e, JSMap.get (vehicleId v) (markerMap (reconcile data s)) = Some e
         ∧ synced (color_of (knownIds_of s) (vehicleId v)) v e.
Proof.
  intros Hcons.
  apply (reconcile_establishes
           (λ v e, synced (color_of (knownIds_of s) (vehicleId v)) v e)).
  - intros s' v. apply reconcile_one_get_same.
  - intros u v e Hu Hv Heq Hs. rewrite Heq.
    eapply synced_rendered; [|exact Hs]. by apply Hcons.
Qed.

Lemma refresh_visible data s :
  visible s = true → mapReady s = true →
  refresh (Ok data) s = reconcile data (with_vehicles data s).
Proof.
  intros Hv Hm. unfold refresh, refresh_begin, refresh_resume.
  rewrite Hm. cbn [visible with_vehicles]. by rewrite Hv.
Qed.

(** C2 (amended). For every snapshot whose positions with the same vehicle
    id agree on coordinates, heading (null read as 0) and speed, in
    particular every snapshot without a repeated id, a second [refresh] on
    the same snapshot with the registered vehicles unchanged returns the
    state of the first: it makes no Leaflet call at all and leaves the
    registry and all cached attributes as they are. *)
Theorem no_op_stability (s : State) (data : list VehiclePosition) :
  consistent data → visible s = true → mapReady s = true →
  refresh (Ok data) (refresh (Ok data) s) = refresh (Ok data) s
  ∧ calls_since (refresh (Ok data) s)
      (refresh (Ok data) (refresh (Ok data) s)) = [].
Proof.
  intros Hcons Hv Hm.
  assert (refresh (Ok data) (refresh (Ok data) s) = refresh (Ok data) s)
    as Hfix.
  { rewrite (refresh_visible data s Hv Hm).
    set (s0 := with_vehicles data s).
    destruct (reconcile_frame data s0) as [Hf Hl].
    pose proof Hf as (Hvs & _ & _ & Hvis & _ & _ & Hmr & _).
    rewrite refresh_visible by (by rewrite ?Hvis, ?Hmr).
    replace (with_vehicles data (reconcile data s0)) with (reconcile data s0)
      by (by rewrite <- (with_vehicles_same (reconcile data s0)) at 1;
          rewrite Hvs).
    apply reconcile_fixed; [|apply reconcile_keys|done].
    rewrite (knownIds_of_frame _ _ Hf). by apply reconcile_synced. }
  split; [done|]. rewrite Hfix. unfold calls_since. apply drop_all.
Qed.

Lemma NoDup_ids_consistent data : NoDup (ids data) → consistent data.
Proof.
  intros Hnd u v Hu Hv Heq.
  apply list_elem_of_lookup in Hu as [i Hi].
  apply list_elem_of_lookup in Hv as [j Hj].
  assert (i = j) as ->.
  { apply (NoDup_lookup (ids data) i j (vehicleId u)); [done| |].
    - by rewrite list_lookup_fmap, Hi.
    - by rewrite list_lookup_fmap, Hj, Heq. }
  congruence.
Qed.

Lemma no_op_stability_witness :
  refresh (Ok [sample_A; sample_B])
    (refresh (Ok [sample_A; sample_B]) initial)
  = refresh (Ok [sample_A; sample_B]) initial
  ∧ calls_since (refresh (Ok [sample_A; sample_B]) initial)
      (refresh (Ok [sample_A; sample_B])
         (refresh (Ok [sample_A; sample_B]) initial)) = [].
Proof.
  apply (no_op_stability initial [sample_A; sample_B]);
    [|reflexivity|reflexivity].
  apply NoDup_ids_consistent. vm_compute.
  repeat (constructor; [rewrite ?elem_of_cons, ?elem_of_nil; intuition discriminate|]).
  constructor.
Defined.

(** C2 as stated fails on a snapshot that repeats a vehicle id with two
    headings: the second pass re-icons and re-popups the marker twice. *)
Lemma no_op_stability_fails_on_duplicates :
  calls_since (refresh (Ok sample_duplicates) initial)
    (refresh (Ok sample_duplicates)
       (refresh (Ok sample_duplicates) initial))
  = [SetIcon 0 (makeVehicleIcon 0 NEUTRAL_COLOR);
     SetPopupContent 0
       (mkPopup "A" "2024-01-01T00:00:00Z" None (Some 0));
     SetIcon 0 (makeVehicleIcon 90 NEUTRAL_COLOR);
     SetPopupContent 0
       (mkPopup "A" "2024-01-01T00:00:05Z" None (Some 90))].
Proof. reflexivity. Qed.

(** ** Well-formed states *)

Lemma Forall_set {V : Type} (P : string * V → Prop) k v (m : JSMap.t V) :
  Forall P m → P (k, v) → Forall P (JSMap.set k v m).
Proof.
  intros Hm Hv. induction Hm as [|[k' v'] m Hx Hm IH]; cbn [JSMap.set].
  - by constructor.
  - destruct (decide (k = k')); constructor; auto.
Qed.

Lemma update_entry_coherent v h c e :
  coherent e → coherent (update_entry v h c e).1.
Proof.
  unfold coherent, update_entry. intros Hc.
  destruct (_ || _), (_ || _), (_ || _); cbn; done.
Qed.

Lemma wf_initial : wf initial.
Proof. split; constructor. Qed.

Lemma reconcile_one_wf K s v : wf s → wf (reconcile_one K s v).
Proof.
  intros [Hk Hc].
  destruct (JSMap.get (vehicleId v) (markerMap s)) as [e|] eqn:Hget.
  - rewrite (reconcile_one_existing K s v e Hget).
    split; cbn [markerMap log with_markerMap].
    + by apply keys_set_NoDup.
    + apply Forall_set; [done|]. apply update_entry_coherent.
      apply get_Some_elem in Hget.
      by apply (proj1 (Forall_forall _ _) Hc (vehicleId v, e)).
  - rewrite (reconcile_one_new K s v Hget). unfold create_entry.
    split; cbn [markerMap log with_markerMap with_markerLayer].
    + by apply keys_set_NoDup.
    + by apply Forall_set.
Qed.

Lemma reconcile_loop_wf K data s seen :
  wf s → wf (reconcile_loop K data (s, seen)).1.
Proof.
  revert s seen. induction data as [|v data IH]; intros s seen Hwf; [done|].
  rewrite reconcile_loop_cons. by apply IH, reconcile_one_wf.
Qed.

Lemma wf_markerMap_filter (P : string * MarkerEntry → Prop)
    `{∀ x, Decision (P x)} s s' :
  markerMap s' = filter P (markerMap s) → wf s → wf s'.
Proof.
  intros Hm [Hk Hc]. split; rewrite Hm.
  - by apply keys_filter_NoDup.
  - apply Forall_forall. intros kv Hkv.
    apply list_elem_of_filter in Hkv as [_ Hkv].
    by apply (proj1 (Forall_forall _ _) Hc).
Qed.

Lemma reconcile_wf data s : wf s → wf (reconcile data s).
Proof.
  intros Hwf. eapply wf_markerMap_filter; [apply reconcile_markerMap|].
  by apply reconcile_loop_wf.
Qed.

Lemma wf_same_markerMap s s' : markerMap s' = markerMap s → wf s → wf s'.
Proof. intros Hm [Hk Hc]. split; by rewrite Hm. Qed.

Lemma wf_empty_markerMap s : markerMap s = [] → wf s.
Proof. intros Hm. split; rewrite Hm; constructor. Qed.

Lemma refresh_resume_wf r s : wf s → wf (refresh_resume r s).
Proof.
  intros Hwf. destruct r as [| | |data]; try done.
  unfold refresh_resume. destruct (negb _).
  - by apply (wf_same_markerMap s).
  - apply reconcile_wf. by apply (wf_same_markerMap s).
Qed.

Lemma selectVehicle_begin_markerMap vid s :
  markerMap (selectVehicle_begin vid s) = markerMap s.
Proof.
  unfold selectVehicle_begin, remove_track.
  destruct (mapReady s); [|done]. cbn. by destruct (trackPolyline s).
Qed.

Lemma selectVehicle_resume_markerMap r s :
  markerMap (selectVehicle_resume r s) = markerMap s.
Proof.
  destruct r as [| | |points]; try done.
  unfold selectVehicle_resume. by destruct (_ <? _)%nat.
Qed.

Lemma clearTrack_markerMap s : markerMap (clearTrack s) = markerMap s.
Proof. unfold clearTrack, remove_track. cbn. by destruct (trackPolyline s). Qed.

Lemma stop_markerMap s : markerMap (stop s) = [].
Proof. done. Qed.

Lemma toggleVisibility_wf s : wf s → wf (toggleVisibility s).
Proof.
  intros Hwf. unfold toggleVisibility. destruct (mapReady s); [|done].
  cbn [visible with_visible]. destruct (negb (visible s)).
  - by apply (wf_same_markerMap s).
  - by apply wf_empty_markerMap.
Qed.

(** Every state an execution reaches is well formed. *)
Lemma step_wf e y y' : wf (tracking y) → step e y = Some y' → wf (tracking y').
Proof.
  intros Hwf Hstep.
  destruct e; cbn [step] in Hstep;
    repeat match type of Hstep with
      | context [match ?x with _ => _ end] => destruct x eqn:?
      end;
    try discriminate; injection Hstep as <-;
    unfold launch_refresh, on_state;
    repeat match goal with
      | |- context [if ?b then _ else _] => destruct b
      end;
    cbn [tracking];
    try done;
    first
      [ by apply refresh_resume_wf
      | by apply toggleVisibility_wf
      | by apply wf_empty_markerMap
      | (apply (wf_same_markerMap (tracking y)); [|done]);
        first [ done
              | apply selectVehicle_begin_markerMap
              | apply selectVehicle_resume_markerMap
              | apply clearTrack_markerMap
              | by destruct r ] ].
Qed.

Lemma run_wf es y y' : wf (tracking y) → run es y = Some y' → wf (tracking y').
Proof.
  revert y. induction es as [|e es IH]; intros y Hwf Hrun; cbn [run] in Hrun.
  - by injection Hrun as <-.
  - destruct (step e y) as [y1|] eqn:Hstep; [|done].
    eapply IH; [|done]. by eapply step_wf.
Qed.

(** ** The log of Leaflet calls only grows *)

Lemma log_calls_prefix cs s : calls s `prefix_of` calls (log cs s).
Proof. by exists cs. Qed.

Lemma reconcile_one_calls K s v :
  calls s `prefix_of` calls (reconcile_one K s v).
Proof. reconcile_one_cases; by eexists. Qed.

Lemma reconcile_loop_app K l1 l2 acc :
  reconcile_loop K (l1 ++ l2) acc
  = reconcile_loop K l2 (reconcile_loop K l1 acc).
Proof. unfold reconcile_loop. apply fold_left_app. Qed.

Lemma reconcile_loop_calls K data s seen :
  calls s `prefix_of` calls (reconcile_loop K data (s, seen)).1.
Proof.
  revert s seen. induction data as [|v data IH]; intros s seen; [done|].
  rewrite reconcile_loop_cons.
  etrans; [apply reconcile_one_calls | apply IH].
Qed.

Lemma remove_fold_calls seen l s :
  calls s `prefix_of` calls (fold_left (remove_one seen) l s).
Proof.
  revert s. induction l as [|kv l IH]; intros s; [done|].
  cbn [fold_left]. etrans; [|apply IH].
  unfold remove_one. case_bool_decide; [done | by eexists].
Qed.

Lemma attach_layer_calls s : calls s `prefix_of` calls (attach_layer s).
Proof. unfold attach_layer. destruct (hasMarkerLayer s); [done | by eexists]. Qed.

Lemma reconcile_calls_loop data s :
  calls (reconcile_loop (knownIds_of s) data (s, ∅)).1
  `prefix_of` calls (reconcile data s).
Proof.
  unfold reconcile.
  destruct (reconcile_loop (knownIds_of s) data (s, ∅)) as [s1 seen].
  cbn [fst]. etrans; [|apply attach_layer_calls]. apply remove_fold_calls.
Qed.

Lemma reconcile_calls data s : calls s `prefix_of` calls (reconcile data s).
Proof.
  etrans; [|apply reconcile_calls_loop]. apply reconcile_loop_calls.
Qed.

Lemma elem_of_calls_since s s1 s' c cs :
  calls s `prefix_of` calls s1 →
  (calls s1 ++ cs) `prefix_of` calls s' →
  c ∈ cs → c ∈ calls_since s s'.
Proof.
  intros [l1 H1] [l2 H2] Hc. unfold calls_since.
  rewrite H2, H1, <- !app_assoc, drop_app_length.
  apply elem_of_app. right. apply elem_of_app. by left.
Qed.

Lemma reconcile_loop_get_other K data s seen k :
  k ∉ ids data →
  JSMap.get k (markerMap (reconcile_loop K data (s, seen)).1)
  = JSMap.get k (markerMap s).
Proof.
  revert s seen. induction data as [|v data IH]; intros s seen Hk; [done|].
  rewrite fmap_cons, not_elem_of_cons in Hk. destruct Hk as [Hne Hk].
  rewrite reconcile_loop_cons, IH by done.
  by apply reconcile_one_get_other.
Qed.

(** The first position of a snapshot that carries a given id. *)
Lemma first_occurrence data vid :
  vid ∈ ids data →
  ∃ pre v post, data = pre ++ v :: post ∧ vehicleId v = vid ∧ vid ∉ ids pre.
Proof.
  intros Hin. apply list_elem_of_split_l in Hin as (l1 & l2 & Heq & Hn).
  apply fmap_app_inv in Heq as (pre & rest & -> & Hrest & ->).
  symmetry in Hrest. apply fmap_cons_inv in Hrest as (v & post & -> & -> & ->).
  by exists pre, v, post.
Qed.

(** The last position of a snapshot that carries a given id. *)
Lemma last_occurrence data vid :
  vid ∈ ids data →
  ∃ pre v post, data = pre ++ v :: post ∧ vehicleId v = vid ∧ vid ∉ ids post.
Proof.
  intros Hin. apply list_elem_of_split_r in Hin as (l1 & l2 & Heq & Hn).
  apply fmap_app_inv in Heq as (pre & rest & -> & Hrest & ->).
  symmetry in Hrest. apply fmap_cons_inv in Hrest as (v & post & -> & -> & ->).
  by exists pre, v, post.
Qed.

Lemma update_entry_recolor v h c e :
  entry_color e ≠ c →
  SetIcon (stamp (entry_marker e)) (makeVehicleIcon h c)
  ∈ (update_entry v h c e).2.
Proof.
  intros Hc. unfold update_entry.
  rewrite (proj2 (strict_ne_true _ _) Hc), orb_true_r.
  destruct (_ || _), (_ || _); cbn;
    rewrite ?elem_of_cons; auto.
Qed.

(** An entry whose cached color is not the one its id now gets has its icon
    regenerated, with the new color, by the next reconcile that sees the
    id. *)
Lemma reconcile_recolors data s vid e :
  JSMap.get vid (markerMap s) = Some e →
  entry_color e ≠ color_of (knownIds_of s) vid →
  vid ∈ ids data →
  ∃ h, SetIcon (stamp (entry_marker e))
         (makeVehicleIcon h (color_of (knownIds_of s) vid))
       ∈ calls_since s (reconcile data s).
Proof.
  intros Hget Hc Hin.
  destruct (first_occurrence data vid Hin) as (pre & v & post & -> & <- & Hn).
  exists (default 0 (heading v)).
  set (K := knownIds_of s).
  set (s1 := (reconcile_loop K pre (s, ∅)).1).
  assert (JSMap.get (vehicleId v) (markerMap s1) = Some e) as Hget1
    by (unfold s1; by rewrite reconcile_loop_get_other).
  apply (elem_of_calls_since s s1 _ _
           (update_entry v (default 0 (heading v))
              (color_of K (vehicleId v)) e).2).
  - apply reconcile_loop_calls.
  - etrans; [|apply reconcile_calls_loop]. fold K.
    rewrite reconcile_loop_app.
    destruct (reconcile_loop K pre (s, ∅)) as [s1' seen] eqn:Hpre.
    cbn [fst] in s1. subst s1. rewrite reconcile_loop_cons.
    etrans; [|apply reconcile_loop_calls].
    by rewrite (reconcile_one_existing K s1' v e Hget1).
  - by apply update_entry_recolor.
Qed.

(** ** Colors *)

Lemma color_of_known K vid : vid ∈ K → color_of K vid = ACCENT_COLOR.
Proof. intros H. unfold color_of. by rewrite bool_decide_true. Qed.

Lemma color_of_unknown K vid : vid ∉ K → color_of K vid = NEUTRAL_COLOR.
Proof. intros H. unfold color_of. by rewrite bool_decide_false. Qed.

Lemma elem_of_knownIds_of s vid :
  vid ∈ knownIds_of s ↔ vid ∈ (rv_vehicleId <$> registeredVehicles s).
Proof. unfold knownIds_of. apply elem_of_list_to_set. Qed.

Lemma refresh_frame data s :
  visible s = true → mapReady s = true →
  registeredVehicles (refresh (Ok data) s) = registeredVehicles s
  ∧ visible (refresh (Ok data) s) = true
  ∧ mapReady (refresh (Ok data) s) = true
  ∧ vehicles (refresh (Ok data) s) = data
  ∧ hasMarkerLayer (refresh (Ok data) s) = true.
Proof.
  intros Hv Hm. rewrite (refresh_visible data s Hv Hm).
  destruct (reconcile_frame data (with_vehicles data s))
    as [(Hvs & Hr & _ & Hvis & _ & _ & Hmr & _) Hl].
  cbn in *. repeat split; congruence.
Qed.

Lemma refresh_entry_color data s v :
  visible s = true → mapReady s = true → v ∈ data →
  ∃ e, JSMap.get (vehicleId v) (markerMap (refresh (Ok data) s)) = Some e
       ∧ entry_color e = color_of (knownIds_of s) (vehicleId v).
Proof.
  intros Hv Hm Hin. rewrite (refresh_visible data s Hv Hm).
  apply (reconcile_establishes
           (λ v e, entry_color e = color_of (knownIds_of s) (vehicleId v))
           data (with_vehicles data s)); [| |done].
  - intros s' u.
    destruct (reconcile_one_get_same (knownIds_of (with_vehicles data s)) s' u)
      as (e & He & _ & _ & _ & Hc).
    by exists e.
  - intros u w e _ _ Heq Hc. by rewrite Heq.
Qed.

Lemma refresh_wf r s : wf s → wf (refresh r s).
Proof.
  intros Hwf. unfold refresh. destruct (refresh_begin s); [|done].
  by apply refresh_resume_wf.
Qed.

Lemma wf_entry_icon s k e :
  wf s → JSMap.get k (markerMap s) = Some e →
  icon_color (icon (entry_marker e)) = entry_color e.
Proof.
  intros [_ Hc] Hget. apply get_Some_elem in Hget.
  pose proof (proj1 (Forall_forall _ _) Hc _ Hget) as Hcoh.
  cbn in Hcoh. unfold coherent in Hcoh. by rewrite Hcoh.
Qed.

(** C8. After a [refresh] (visible, map handle, successful fetch) every
    position of the snapshot has a registry entry whose cached color, which
    is also the color of its marker's icon, is the accent color [#E65100]
    exactly when its id is in the current [registeredVehicles] and the
    neutral color [#757575] otherwise, wherever the position stands in the
    snapshot.  And when an id that was unknown at one reconcile has been
    registered before the next one that sees it, that reconcile regenerates
    the icon of its marker with the accent color. *)
Theorem color_classification (s : State) (data : list VehiclePosition) :
  wf s → visible s = true → mapReady s = true →
  (∀ v, v ∈ data →
     ∃ e, JSMap.get (vehicleId v) (markerMap (refresh (Ok data) s)) = Some e
          ∧ icon_color (icon (entry_marker e)) = entry_color e
          ∧ (vehicleId v ∈ (rv_vehicleId <$> registeredVehicles s) →
             entry_color e = ACCENT_COLOR)
          ∧ (vehicleId v ∉ (rv_vehicleId <$> registeredVehicles s) →
             entry_color e = NEUTRAL_COLOR))
  ∧ (∀ vid rvs data',
       vid ∈ ids data →
       vid ∉ (rv_vehicleId <$> registeredVehicles s) →
       vid ∈ (rv_vehicleId <$> rvs) →
       vid ∈ ids data' →
       let s1 := refresh (Ok data) s in
       let s2 := fetchRegisteredVehicles_resume (Ok rvs) s1 in
       let s3 := refresh (Ok data') s2 in
       ∃ e h,
         JSMap.get vid (markerMap s1) = Some e
         ∧ entry_color e = NEUTRAL_COLOR
         ∧ SetIcon (stamp (entry_marker e)) (makeVehicleIcon h ACCENT_COLOR)
           ∈ calls_since s2 s3).
Proof.
  intros Hwf Hv Hm. split.
  - intros v Hin.
    destruct (refresh_entry_color data s v Hv Hm Hin) as (e & Hget & Hc).
    exists e. split; [done|]. split; [|split].
    + eapply wf_entry_icon; [|exact Hget]. by apply refresh_wf.
    + intros Hk. rewrite Hc. by apply color_of_known, elem_of_knownIds_of.
    + intros Hk. rewrite Hc. apply color_of_unknown.
      by rewrite elem_of_knownIds_of.
  - intros vid rvs data' Hin Hunk Hkn Hin' s1 s2 s3.
    apply list_elem_of_fmap in Hin as (v & -> & Hin).
    destruct (refresh_entry_color data s v Hv Hm Hin) as (e & Hget & Hc).
    rewrite color_of_unknown in Hc by (by rewrite elem_of_knownIds_of).
    destruct (refresh_frame data s Hv Hm) as (_ & Hv1 & Hm1 & _).
    assert (color_of (knownIds_of (with_vehicles data' s2)) (vehicleId v)
            = ACCENT_COLOR) as Hacc.
    { apply color_of_known. by apply elem_of_knownIds_of. }
    destruct (reconcile_recolors data' (with_vehicles data' s2)
                (vehicleId v) e) as [h Hh]; [done| |done|].
    { rewrite Hacc, Hc. discriminate. }
    exists e, h. split; [done|]. split; [done|].
    rewrite Hacc in Hh. unfold s3.
    by rewrite (refresh_visible data' s2 Hv1 Hm1).
Qed.

Lemma color_classification_witness :
  ∃ e, JSMap.get "A" (markerMap (refresh (Ok [sample_A; sample_B]) initial))
       = Some e
       ∧ icon_color (icon (entry_marker e)) = entry_color e
       ∧ entry_color e = NEUTRAL_COLOR.
Proof.
  destruct (proj1 (color_classification initial [sample_A; sample_B]
                     wf_initial eq_refl eq_refl) sample_A)
    as (e & Hget & Hicon & _ & Hunknown).
  - apply list_elem_of_here.
  - exists e. split; [exact Hget|]. split; [exact Hicon|].
    apply Hunknown. cbn. apply not_elem_of_nil.
Defined.

(** ** Repeated ids in one snapshot *)

Lemma one_entry_per_key {V : Type} (m : JSMap.t V) k :
  NoDup (JSMap.keys m) → k ∈ JSMap.keys m →
  length (filter (λ kv, kv.1 = k) m) = 1%nat.
Proof.
  unfold JSMap.keys. induction m as [|[k' v'] m IH]; intros Hnd Hin.
  - by apply elem_of_nil in Hin.
  - rewrite fmap_cons in Hnd, Hin. apply NoDup_cons in Hnd as [Hn Hnd].
    rewrite filter_cons. cbn [fst] in *.
    destruct (decide (k' = k)) as [->|Hne].
    + cbn [length]. f_equal.
      destruct (filter (λ kv, kv.1 = k) m) as [|x l] eqn:Hf; [done|].
      exfalso. apply Hn.
      assert (x ∈ filter (λ kv : string * V, kv.1 = k) m) as Hx
        by (rewrite Hf; apply list_elem_of_here).
      apply list_elem_of_filter in Hx as [<- Hx].
      apply list_elem_of_fmap. eauto.
    + apply IH; [done|].
      apply elem_of_cons in Hin as [->|Hin]; [done | done].
Qed.

(** The state in which the loop reaches [v] in a snapshot [pre ++ v :: post],
    and how the loop goes on from there. *)
Lemma reconcile_loop_split K pre v post acc :
  reconcile_loop K (pre ++ v :: post) acc
  = reconcile_loop K post
      (reconcile_one K (reconcile_loop K pre acc).1 v,
       {[vehicleId v]} ∪ (reconcile_loop K pre acc).2).
Proof.
  rewrite reconcile_loop_app. by destruct (reconcile_loop K pre acc).
Qed.

(** C9 (amended). When a snapshot [pre ++ v :: post] repeats a vehicle id,
    [refresh] keeps exactly one registry entry for it and the keys of the
    registry are the ids of the snapshot without repetition.  In the state
    [before] in which the loop reaches [v]: if the id of [v] is neither
    registered already nor among the earlier positions, the iteration creates
    the marker; if the id is among the earlier positions, the iteration is
    the in-place update of the existing entry and keeps its marker.  When [v]
    is the last position with its id, the entry after the pass carries the
    coordinates and the cached heading, speed and color of [v]. *)
Theorem duplicate_ids (s : State) (pre post : list VehiclePosition)
    (v : VehiclePosition) :
  wf s → visible s = true → mapReady s = true →
  let data := pre ++ v :: post in
  let K := knownIds_of s in
  let h := default 0 (heading v) in
  let c := color_of K (vehicleId v) in
  let s' := refresh (Ok data) s in
  let before := (reconcile_loop K pre (with_vehicles data s, ∅)).1 in
  NoDup (JSMap.keys (markerMap s'))
  ∧ keyset s' = list_to_set (ids data)
  ∧ length (filter (λ kv, kv.1 = vehicleId v) (markerMap s')) = 1%nat
  ∧ (vehicleId v ∉ ids pre → vehicleId v ∉ JSMap.keys (markerMap s) →
     reconcile_one K before v = create_entry v h c before)
  ∧ (vehicleId v ∈ ids pre →
     ∃ e, JSMap.get (vehicleId v) (markerMap before) = Some e
          ∧ reconcile_one K before v
            = log (update_entry v h c e).2
                (with_markerMap
                   (JSMap.set (vehicleId v) (update_entry v h c e).1
                      (markerMap before)) before)
          ∧ stamp (entry_marker (update_entry v h c e).1)
            = stamp (entry_marker e))
  ∧ (vehicleId v ∉ ids post →
     ∃ e, JSMap.get (vehicleId v) (markerMap s') = Some e
          ∧ synced c v e).
Proof.
  intros Hwf Hv Hm data K h c s' before.
  assert (keyset s' = list_to_set (ids data)) as Hkeys
    by (by apply refresh_keys).
  assert (NoDup (JSMap.keys (markerMap s'))) as Hnd
    by (by apply refresh_wf).
  assert (vehicleId v ∈ ids data) as Hin.
  { unfold data. rewrite fmap_app, fmap_cons. set_solver. }
  split; [done|]. split; [done|]. split; [|split; [|split]].
  - apply one_entry_per_key; [done|].
    apply (elem_of_list_to_set (C := gset string)). rewrite Hkeys.
    by apply elem_of_list_to_set.
  - intros Hpre Hs. apply reconcile_one_new. unfold before.
    rewrite reconcile_loop_get_other by done. cbn [markerMap with_vehicles].
    by apply get_None_keys.
  - intros Hpre.
    assert (vehicleId v ∈ keyset before) as Hk.
    { unfold before. rewrite reconcile_loop_keys. set_solver. }
    apply elem_of_list_to_set in Hk.
    destruct (JSMap.get (vehicleId v) (markerMap before)) as [e|] eqn:Hget.
    + exists e. split; [done|]. split.
      * by apply reconcile_one_existing.
      * apply update_entry_stamp.
    + by apply get_None_keys in Hget.
  - intros Hpost. unfold s'. rewrite (refresh_visible data s Hv Hm).
    rewrite reconcile_get_seen by done.
    change (knownIds_of (with_vehicles data s)) with K.
    unfold data. rewrite reconcile_loop_split. cbn [fst].
    rewrite reconcile_loop_get_other by done.
    apply reconcile_one_get_same.
Qed.

Lemma duplicate_ids_witness :
  let v0 := mkVehiclePosition "A" 1 1 None (Some 0) "2024-01-01T00:00:00Z" in
  let v1 := mkVehiclePosition "A" 1 1 None (Some 90) "2024-01-01T00:00:05Z" in
  let s' := refresh (Ok ([v0] ++ v1 :: [])) initial in
  NoDup (JSMap.keys (markerMap s'))
  ∧ keyset s' = list_to_set (ids ([v0] ++ v1 :: []))
  ∧ length (filter (λ kv, kv.1 = vehicleId v1) (markerMap s')) = 1%nat.
Proof.
  intros v0 v1 s'.
  pose proof (duplicate_ids initial [v0] [] v1 wf_initial eq_refl eq_refl)
    as (H1 & H2 & H3 & _).
  exact (conj H1 (conj H2 H3)).
Defined.

(** C9 as stated fails when the repeated id is registered already: the first
    occurrence creates no marker, it updates the existing one like the later
    occurrences do. *)
Lemma first_occurrence_of_registered_id_updates :
  let s1 := refresh (Ok [sample_A]) initial in
  let s2 := refresh (Ok sample_duplicates) s1 in
  JSMap.keys (markerMap s1) = ["A"]
  ∧ nextStamp s2 = nextStamp s1
  ∧ calls_since s1 s2
    = [SetIcon 0 (makeVehicleIcon 0 NEUTRAL_COLOR);
       SetPopupContent 0 (mkPopup "A" "2024-01-01T00:00:00Z" None (Some 0));
       SetIcon 0 (makeVehicleIcon 90 NEUTRAL_COLOR);
       SetPopupContent 0 (mkPopup "A" "2024-01-01T00:00:05Z" None (Some 90))].
Proof. by repeat split. Qed.

(** ** The track loader *)

Lemma remove_track_gone s pl :
  trackPolyline s = Some pl → pl ∉ mapPolylines (remove_track s).
Proof.
  intros Ht. unfold remove_track. rewrite Ht. cbn.
  intros Hin. by apply list_elem_of_filter in Hin as [Hne _].
Qed.

Lemma remove_track_single s :
  single_track s → mapPolylines (remove_track s) = [].
Proof.
  unfold remove_track. intros [Hm|(pl & Hm & Ht)].
  - destruct (trackPolyline s); [|done]. cbn. by rewrite Hm.
  - rewrite Ht. cbn. rewrite Hm, filter_cons, decide_False; [done|].
    by intros Hne.
Qed.

(** A call whose history has fewer than two points, or whose fetch fails,
    draws nothing. *)
Lemma selectVehicle_resume_short r s :
  (∀ points, r = Ok points → (length points < 2)%nat) →
  selectVehicle_resume r s = s.
Proof.
  intros Hr. destruct r as [| | |points]; try done.
  unfold selectVehicle_resume. specialize (Hr points eq_refl).
  by rewrite (proj2 (Nat.ltb_lt _ _) Hr).
Qed.

(** A call whose history has [n >= 2] points draws one polyline, with the
    [n] points as its vertices, in order. *)
Lemma selectVehicle_resume_draws points s :
  (2 ≤ length points)%nat →
  let s' := selectVehicle_resume (Ok points) s in
  let pl := mkPolyline (nextStamp s) (vertices points) in
  trackPolyline s' = Some pl
  ∧ mapPolylines s' = mapPolylines s ++ [pl]
  ∧ length (pl_latlngs pl) = length points
  ∧ calls s' = calls s ++ [NewPolyline (nextStamp s) (vertices points);
                           PolylineAddTo (nextStamp s)].
Proof.
  intros Hn. unfold selectVehicle_resume.
  rewrite (proj2 (Nat.ltb_ge _ _) Hn). cbn.
  repeat split. unfold vertices. by rewrite length_fmap.
Qed.

(** Run to completion from a state that obeys the discipline, a call leaves
    at most one polyline on the map. *)
Lemma selectVehicle_single r vid s :
  single_track s → single_track (selectVehicle r vid s).
Proof.
  intros Hs. unfold selectVehicle, selectVehicle_begin.
  destruct (mapReady s) eqn:Hm; [|done].
  pose proof (remove_track_single (with_selectedVehicleId (Some vid) s) Hs)
    as Hrm.
  set (s1 := with_trackPolyline None
               (remove_track (with_selectedVehicleId (Some vid) s))).
  assert (mapPolylines s1 = []) as H1 by done.
  destruct r as [| | |points]; try (by left).
  unfold selectVehicle_resume. destruct (_ <? _)%nat; [by left|].
  right. eexists.
  cbn [mapPolylines trackPolyline log with_trackPolyline with_mapPolylines
       with_nextStamp].
  rewrite H1. by split.
Qed.

(** C10. [selectVehicle], called with a map handle, sets [selectedVehicleId]
    to the new id and removes the drawn track polyline before the history
    request is issued; when the fetch then fails, is not a success, or yields
    fewer than two points, the call ends in exactly that state: the previous
    track stays removed and the selection stays on the new vehicle. *)
Theorem selectVehicle_not_atomic (s : State) (vid : string)
    (r : FetchResult (list VehiclePosition)) :
  mapReady s = true →
  (∀ points, r = Ok points → (length points < 2)%nat) →
  let s1 := selectVehicle_begin vid s in
  selectedVehicleId s1 = Some vid
  ∧ trackPolyline s1 = None
  ∧ (∀ pl, trackPolyline s = Some pl →
           (pl ∉ mapPolylines s1)
           ∧ calls s1 = calls s ++ [PolylineRemove (pl_stamp pl)])
  ∧ selectVehicle r vid s = s1.
Proof.
  intros Hm Hr s1. subst s1. unfold selectVehicle, selectVehicle_begin.
  rewrite Hm. split; [|split; [|split]].
  - unfold remove_track. cbn. by destruct (trackPolyline s).
  - done.
  - intros pl Ht. split.
    + apply (remove_track_gone (with_selectedVehicleId (Some vid) s) pl Ht).
    + unfold remove_track. cbn. by rewrite Ht.
  - by apply selectVehicle_resume_short.
Qed.

Lemma selectVehicle_not_atomic_witness :
  let s := selectVehicle (Ok sample_track_A) "A" initial in
  selectedVehicleId (selectVehicle_begin "B" s) = Some "B"
  ∧ trackPolyline (selectVehicle_begin "B" s) = None
  ∧ (∀ pl, trackPolyline s = Some pl →
           (pl ∉ mapPolylines (selectVehicle_begin "B" s))
           ∧ calls (selectVehicle_begin "B" s)
             = calls s ++ [PolylineRemove (pl_stamp pl)])
  ∧ selectVehicle NotOk "B" s = selectVehicle_begin "B" s.
Proof.
  apply (selectVehicle_not_atomic
           (selectVehicle (Ok sample_track_A) "A" initial) "B" NotOk).
  - reflexivity.
  - intros points Hr. discriminate Hr.
Defined.

(** C7, at the input on which the code departs from it: two calls of
    [selectVehicle] whose fetches are both in flight.  Each call removes the
    line that is drawn when it is called, here none; each continuation then
    draws its own line, and the map ends with two track polylines, the first
    of which nothing refers to any more. *)
Theorem selectVehicle_overlap_two_tracks :
  ∃ y, run [CallSelectVehicle "A"; CallSelectVehicle "B";
            SelectSettles (Ok sample_track_A);
            SelectSettles (Ok sample_track_B)] booted = Some y
       ∧ mapPolylines (tracking y)
         = [mkPolyline 0 (vertices sample_track_A);
            mkPolyline 1 (vertices sample_track_B)]
       ∧ trackPolyline (tracking y) = Some (mkPolyline 1 (vertices sample_track_B))
       ∧ mapPolylines (clearTrack (tracking y))
         = [mkPolyline 0 (vertices sample_track_A)].
Proof. eexists. split; [reflexivity|]. by repeat split. Qed.

(** ** stop *)

Lemma stop_frame s :
  mapReady (stop s) = mapReady s ∧ visible (stop s) = visible s.
Proof.
  destruct s as [? ? ? ? ? ? tp ? mr ? ? ? ?].
  unfold stop, remove_track. cbn. by destruct tp, mr.
Qed.

Lemma stop_cleared s :
  markerMap (stop s) = [] ∧ markerLayer (stop s) = ∅ ∧ timer (stop s) = None
  ∧ hasMarkerLayer (stop s) = (negb (mapReady s) && hasMarkerLayer s).
Proof.
  destruct s as [? ? ? ? ? ? tp ? mr ? ? ? ?].
  unfold stop, remove_track. cbn. by destruct tp, mr.
Qed.

Lemma refresh_resume_hidden data s :
  visible s = false → refresh_resume (Ok data) s = with_vehicles data s.
Proof.
  intros Hv. unfold refresh_resume. cbn [visible with_vehicles].
  by rewrite Hv.
Qed.

(** C4 (amended).  In every state of an execution in which [stop] has run: a
    [refresh] invoked while the map handle is null (it is, once the viewer
    has unmounted) issues no fetch and changes nothing; the continuation of a
    [refresh] that is in flight changes nothing when its fetch fails, and
    when the layer is hidden it touches neither the registry, the layer
    group, the map nor Leaflet.  Nothing else guards the reconcile: the code
    keeps no stopped state, and a continuation that finds the layer visible
    reconciles a successful snapshot as before [stop]. *)
Theorem refresh_after_stop (y : System)
    (r : FetchResult (list VehiclePosition)) :
  stopped y = true →
  (mapReady (tracking y) = false → step CallRefresh y = Some y)
  ∧ (∀ y', step (RefreshSettles r) y = Some y' →
       ((∀ data, r ≠ Ok data) → tracking y' = tracking y)
       ∧ (visible (tracking y) = false →
          markerMap (tracking y') = markerMap (tracking y)
          ∧ markerLayer (tracking y') = markerLayer (tracking y)
          ∧ hasMarkerLayer (tracking y') = hasMarkerLayer (tracking y)
          ∧ calls (tracking y') = calls (tracking y))).
Proof.
  intros _. split.
  - intros Hnull. cbn [step]. unfold launch_refresh, refresh_begin.
    by rewrite Hnull.
  - intros y' Hstep. cbn [step] in Hstep.
    destruct (refreshes y) as [|n]; [done|]. injection Hstep as <-.
    cbn [tracking]. split.
    + intros Hfail. destruct r as [| | |data]; try done.
      by destruct (Hfail data).
    + intros Hhid. destruct r as [| | |data]; try done.
      by rewrite refresh_resume_hidden.
Qed.

Lemma refresh_after_stop_witness :
  run [CallStart 8000; CallStop; DropMap] booted = Some sample_unmounted
  ∧ step CallRefresh sample_unmounted = Some sample_unmounted.
Proof.
  split; [reflexivity|].
  exact (proj1 (refresh_after_stop sample_unmounted Rejected eq_refl)
           eq_refl).
Defined.

(** C4 as stated fails: there is no guard on the continuation.  A snapshot
    fetch issued by [start] is in flight when the component unmounts ([stop],
    then the viewer drops its map); when it settles, the continuation
    registers a marker, adds it to the layer group and puts the layer group
    back on the map. *)
Lemma refresh_in_flight_survives_stop :
  ∃ y, run [CallStart 8000; CallStop; DropMap;
            RefreshSettles (Ok [sample_A])] booted = Some y
       ∧ stopped y = true
       ∧ JSMap.keys (markerMap (tracking y)) = ["A"]
       ∧ markerLayer (tracking y) = {[0%nat]}
       ∧ calls_since (stop initial) (tracking y)
         = [NewMarker 0 (mkLatLng 1 1) (makeVehicleIcon 90 NEUTRAL_COLOR) 500;
            BindTooltip 0 "A";
            BindPopup 0 (makeVehiclePopup sample_A);
            OnClick 0 "A";
            AddLayer 0;
            LayerAddTo].
Proof. eexists. split; [reflexivity|]. by repeat split. Qed.

(** ** The layer group and the registry hold the same markers *)

Lemma set_absent {V : Type} k (v : V) (m : JSMap.t V) :
  JSMap.get k m = None → JSMap.set k v m = m ++ [(k, v)].
Proof.
  induction m as [|[k' v'] m IH]; cbn [JSMap.get JSMap.set]; [done|].
  destruct (decide (k = k')); [done|]. intros H. by rewrite IH.
Qed.

Lemma stamps_set_same k e e' m :
  JSMap.get k m = Some e →
  stamp (entry_marker e') = stamp (entry_marker e) →
  stamps (JSMap.set k e' m) = stamps m.
Proof.
  intros Hget Hst. unfold stamps.
  induction m as [|[k' v'] m IH]; [done|].
  cbn [JSMap.get JSMap.set] in *. destruct (decide (k = k')) as [->|].
  - injection Hget as ->. rewrite !fmap_cons. cbn. by rewrite Hst.
  - rewrite !fmap_cons. by rewrite IH.
Qed.

Lemma layer_ok_initial : layer_ok initial.
Proof. split; [constructor | constructor | done]. Qed.

Lemma reconcile_one_layer_ok K s v :
  layer_ok s → layer_ok (reconcile_one K s v).
Proof.
  intros [Hd Hc Hl].
  destruct (JSMap.get (vehicleId v) (markerMap s)) as [e|] eqn:Hget.
  - rewrite (reconcile_one_existing K s v e Hget).
    split; cbn [markerMap markerLayer nextStamp log with_markerMap];
      by rewrite (stamps_set_same _ e) by (done || apply update_entry_stamp).
  - rewrite (reconcile_one_new K s v Hget). unfold create_entry.
    split;
      cbn [markerMap markerLayer nextStamp log with_markerMap
           with_markerLayer with_nextStamp];
      rewrite set_absent by done; unfold stamps in *; rewrite fmap_app;
      cbn [fmap list_fmap snd entry_marker stamp].
    + apply NoDup_app. split; [done|]. split; [|apply NoDup_singleton].
      intros n Hn Hn'. apply list_elem_of_singleton in Hn'. subst n.
      pose proof (proj1 (Forall_forall _ _) Hc _ Hn) as Hlt.
      cbv beta in Hlt. lia.
    + apply Forall_app. split; [|by repeat constructor].
      eapply Forall_impl; [exact Hc|]. intros n Hn. cbn in *. lia.
    + rewrite Hl. set_solver.
Qed.

Lemma reconcile_loop_layer_ok K data s seen :
  layer_ok s → layer_ok (reconcile_loop K data (s, seen)).1.
Proof.
  revert s seen. induction data as [|v data IH]; intros s seen Hok; [done|].
  rewrite reconcile_loop_cons. by apply IH, reconcile_one_layer_ok.
Qed.

Lemma remove_one_layer_ok seen s kv :
  NoDup (JSMap.keys (markerMap s)) → kv ∈ markerMap s →
  layer_ok s → layer_ok (remove_one seen s kv).
Proof.
  intros Hk Hin [Hd Hc Hl]. unfold remove_one.
  case_bool_decide as Hseen; [by split|].
  assert (∀ kv', kv' ∈ markerMap s → kv'.1 = kv.1 → kv' = kv) as Huniq.
  { intros kv' Hin' Heq.
    apply list_elem_of_lookup in Hin as [i Hi].
    apply list_elem_of_lookup in Hin' as [j Hj].
    assert (j = i) as ->; [|congruence].
    apply (NoDup_lookup (JSMap.keys (markerMap s)) j i kv.1); [done| |];
      unfold JSMap.keys; rewrite list_lookup_fmap.
    - by rewrite Hj, <- Heq.
    - by rewrite Hi. }
  assert (∀ kv', kv' ∈ markerMap s →
            stamp (entry_marker kv'.2) = stamp (entry_marker kv.2) →
            kv' = kv) as Hstamp.
  { intros kv' Hin' Heq.
    apply list_elem_of_lookup in Hin as [i Hi].
    apply list_elem_of_lookup in Hin' as [j Hj].
    assert (j = i) as ->; [|congruence].
    apply (NoDup_lookup (stamps (markerMap s)) j i
             (stamp (entry_marker kv.2))); [done| |];
      unfold stamps; rewrite list_lookup_fmap.
    - by rewrite Hj, <- Heq.
    - by rewrite Hi. }
  split;
    cbn [markerMap markerLayer nextStamp log with_markerMap with_markerLayer];
    unfold JSMap.delete, stamps in *.
  - apply (NoDup_fmap_2_strong _ _).
    + intros x y Hx Hy Heq.
      apply list_elem_of_filter in Hx as [_ Hx].
      apply list_elem_of_filter in Hy as [_ Hy].
      apply list_elem_of_lookup in Hx as [i Hi].
      apply list_elem_of_lookup in Hy as [j Hj].
      assert (i = j) as ->; [|congruence].
      apply (NoDup_lookup _ i j (stamp (entry_marker x.2)) Hd);
        rewrite list_lookup_fmap.
      * by rewrite Hi.
      * by rewrite Hj, Heq.
    + apply NoDup_filter. by eapply NoDup_fmap_1.
  - apply Forall_forall. intros n Hn.
    apply list_elem_of_fmap in Hn as (x & -> & Hx).
    apply list_elem_of_filter in Hx as [_ Hx].
    apply (proj1 (Forall_forall _ _) Hc). apply list_elem_of_fmap. eauto.
  - rewrite Hl. apply set_eq. intros n.
    rewrite elem_of_difference, !elem_of_list_to_set, !list_elem_of_fmap,
      elem_of_singleton.
    split.
    + intros [(x & -> & Hx) Hne]. exists x. split; [done|].
      apply list_elem_of_filter. split; [|done].
      intros Heq. apply Hne. by rewrite (Huniq x Hx Heq).
    + intros (x & -> & Hx). apply list_elem_of_filter in Hx as [Hne Hx].
      split; [eauto|]. intros Heq. apply Hne. by rewrite (Hstamp x Hx Heq).
Qed.

Lemma remove_fold_layer_ok seen l s :
  NoDup (JSMap.keys l) → (∀ kv, kv ∈ l → kv ∈ markerMap s) →
  NoDup (JSMap.keys (markerMap s)) → layer_ok s →
  layer_ok (fold_left (remove_one seen) l s).
Proof.
  revert s. induction l as [|kv l IH]; intros s Hl Hin Hk Hok; [done|].
  cbn [fold_left]. unfold JSMap.keys in Hl. rewrite fmap_cons in Hl.
  apply NoDup_cons in Hl as [Hn Hl].
  apply IH; [done| | |].
  - intros kv' Hkv'. rewrite remove_one_markerMap.
    apply list_elem_of_filter. split.
    + right. intros Heq. apply Hn. apply list_elem_of_fmap. eauto.
    + apply Hin. by apply list_elem_of_further.
  - rewrite remove_one_markerMap. by apply keys_filter_NoDup.
  - apply remove_one_layer_ok; [done| |done]. apply Hin, list_elem_of_here.
Qed.

Lemma attach_layer_kept s :
  markerMap (attach_layer s) = markerMap s
  ∧ markerLayer (attach_layer s) = markerLayer s
  ∧ nextStamp (attach_layer s) = nextStamp s.
Proof. unfold attach_layer. by destruct (hasMarkerLayer s). Qed.

Lemma layer_ok_kept s s' :
  markerMap s' = markerMap s → markerLayer s' = markerLayer s →
  (nextStamp s ≤ nextStamp s')%nat → layer_ok s → layer_ok s'.
Proof.
  intros Hm Hl Hn [Hd Hc Hly]. split; rewrite ?Hm, ?Hl; [done| |done].
  eapply Forall_impl; [exact Hc|]. intros n Hlt. cbv beta in *. lia.
Qed.

Lemma layer_ok_empty s : markerMap s = [] → markerLayer s = ∅ → layer_ok s.
Proof. intros Hm Hl. split; rewrite Hm, ?Hl; [constructor..|done]. Qed.

Lemma reconcile_layer_ok data s : wf s → layer_ok s → layer_ok (reconcile data s).
Proof.
  intros Hwf Hok. unfold reconcile.
  pose proof (reconcile_loop_wf (knownIds_of s) data s ∅ Hwf) as [Hk _].
  pose proof (reconcile_loop_layer_ok (knownIds_of s) data s ∅ Hok) as Hok1.
  destruct (reconcile_loop (knownIds_of s) data (s, ∅)) as [s1 seen].
  cbn [fst] in *.
  destruct (attach_layer_kept (remove_unseen seen s1)) as (Hm & Hl & Hn).
  apply (layer_ok_kept (remove_unseen seen s1)); [done|done|lia|].
  by apply remove_fold_layer_ok.
Qed.

Lemma refresh_resume_layer_ok r s :
  wf s → layer_ok s → layer_ok (refresh_resume r s).
Proof.
  intros Hwf Hok. destruct r as [| | |data]; try done.
  unfold refresh_resume. destruct (negb _).
  - by apply (layer_ok_kept s).
  - apply reconcile_layer_ok.
    + by apply (wf_same_markerMap s).
    + by apply (layer_ok_kept s).
Qed.

Lemma selectVehicle_begin_kept vid s :
  markerMap (selectVehicle_begin vid s) = markerMap s
  ∧ markerLayer (selectVehicle_begin vid s) = markerLayer s
  ∧ nextStamp (selectVehicle_begin vid s) = nextStamp s.
Proof.
  unfold selectVehicle_begin, remove_track.
  destruct (mapReady s); [|done]. cbn. by destruct (trackPolyline s).
Qed.

Lemma selectVehicle_resume_kept r s :
  markerMap (selectVehicle_resume r s) = markerMap s
  ∧ markerLayer (selectVehicle_resume r s) = markerLayer s
  ∧ (nextStamp s ≤ nextStamp (selectVehicle_resume r s))%nat.
Proof.
  destruct r as [| | |points]; try done.
  unfold selectVehicle_resume. destruct (_ <? _)%nat; [done|].
  cbn. repeat split. lia.
Qed.

Lemma clearTrack_kept s :
  markerMap (clearTrack s) = markerMap s
  ∧ markerLayer (clearTrack s) = markerLayer s
  ∧ nextStamp (clearTrack s) = nextStamp s.
Proof. unfold clearTrack, remove_track. cbn. by destruct (trackPolyline s). Qed.

Lemma toggleVisibility_layer_ok s : layer_ok s → layer_ok (toggleVisibility s).
Proof.
  intros Hok. unfold toggleVisibility. destruct (mapReady s); [|done].
  cbn [visible with_visible]. destruct (negb (visible s)).
  - by apply (layer_ok_kept s).
  - by apply layer_ok_empty.
Qed.

Lemma stop_layer_ok s : layer_ok (stop s).
Proof. destruct (stop_cleared s) as (Hm & Hl & _). by apply layer_ok_empty. Qed.

(** In every state an execution reaches, the layer group holds exactly the
    markers of the registry. *)
Lemma step_layer_ok e y y' :
  wf (tracking y) → layer_ok (tracking y) → step e y = Some y' → layer_ok (tracking y').
Proof.
  intros Hwf Hok Hstep.
  destruct e as [ms| | | | |vid| | | |r|r|r]; cbn [step] in Hstep.
  - injection Hstep as <-. unfold on_state, launch_refresh. cbn [tracking].
    destruct (refresh_begin _); by apply (layer_ok_kept (tracking y)).
  - injection Hstep as <-. apply stop_layer_ok.
  - injection Hstep as <-. unfold launch_refresh.
    by destruct (refresh_begin _).
  - destruct (timer (tracking y)); [|done]. injection Hstep as <-.
    unfold launch_refresh. by destruct (refresh_begin _).
  - by injection Hstep as <-.
  - injection Hstep as <-. cbn [tracking].
    destruct (selectVehicle_begin_kept vid (tracking y)) as (Hm & Hl & Hn).
    apply (layer_ok_kept (tracking y)); [done|done|lia|done].
  - injection Hstep as <-. cbn [tracking on_state].
    destruct (clearTrack_kept (tracking y)) as (Hm & Hl & Hn).
    apply (layer_ok_kept (tracking y)); [done|done|lia|done].
  - injection Hstep as <-.
    assert (layer_ok (tracking (on_state toggleVisibility y))) as Ht
      by (by apply toggleVisibility_layer_ok).
    destruct (toggleVisibility_refreshes (tracking y)); [|done].
    unfold launch_refresh. by destruct (refresh_begin _).
  - injection Hstep as <-. by apply (layer_ok_kept (tracking y)).
  - destruct (refreshes y); [done|]. injection Hstep as <-.
    by apply refresh_resume_layer_ok.
  - destruct (selections y); [done|]. injection Hstep as <-. cbn [tracking].
    destruct (selectVehicle_resume_kept r (tracking y)) as (Hm & Hl & Hn).
    by apply (layer_ok_kept (tracking y)).
  - destruct (registrations y); [done|]. injection Hstep as <-. cbn [tracking].
    apply (layer_ok_kept (tracking y)); [by destruct r..|done].
Qed.

Lemma run_layer_ok es y y' :
  wf (tracking y) → layer_ok (tracking y) → run es y = Some y' →
  wf (tracking y') ∧ layer_ok (tracking y').
Proof.
  revert y. induction es as [|e es IH]; intros y Hwf Hok Hrun;
    cbn [run] in Hrun.
  - by injection Hrun as <-.
  - destruct (step e y) as [y1|] eqn:Hstep; [|done].
    eapply IH; [| |done]; [by eapply step_wf | by eapply step_layer_ok].
Qed.

(** The scenario of three ticks: [A], then [A] with a new heading, then
    [B].  The first adds [A]; the second re-icons and re-popups [A]; the
    third adds [B] and removes [A]. *)
Example three_ticks :
  let a0 := mkVehiclePosition "A" 1 1 None (Some 0) "t0" in
  let a1 := mkVehiclePosition "A" 1 1 None (Some 90) "t1" in
  let b  := mkVehiclePosition "B" 2 2 None (Some 0) "t2" in
  let s1 := refresh (Ok [a0]) initial in
  let s2 := refresh (Ok [a1]) s1 in
  let s3 := refresh (Ok [b]) s2 in
  calls s1
  = [NewMarker 0 (mkLatLng 1 1) (makeVehicleIcon 0 NEUTRAL_COLOR) 500;
     BindTooltip 0 "A"; BindPopup 0 (makeVehiclePopup a0); OnClick 0 "A";
     AddLayer 0; LayerAddTo]
  ∧ calls_since s1 s2
    = [SetIcon 0 (makeVehicleIcon 90 NEUTRAL_COLOR);
       SetPopupContent 0 (makeVehiclePopup a1)]
  ∧ calls_since s2 s3
    = [NewMarker 1 (mkLatLng 2 2) (makeVehicleIcon 0 NEUTRAL_COLOR) 500;
       BindTooltip 1 "B"; BindPopup 1 (makeVehiclePopup b); OnClick 1 "B";
       AddLayer 1; RemoveLayer 0]
  ∧ JSMap.keys (markerMap s3) = ["B"]
  ∧ markerLayer s3 = {[1%nat]}.
Proof. by repeat split. Qed.

(** A vehicle shown as unknown is registered between two ticks: the next
    reconcile makes one Leaflet call, the icon with the accent color. *)
Example unknown_becomes_known :
  let s1 := refresh (Ok [sample_A]) initial in
  let s2 :=
    fetchRegisteredVehicles_resume
      (Ok [mkRegisteredVehicle 7 "A" "Reach stacker" None None
             "2024-01-01T00:00:00Z"]) s1 in
  calls_since s2 (refresh (Ok [sample_A]) s2)
  = [SetIcon 0 (makeVehicleIcon 90 ACCENT_COLOR)].
Proof. reflexivity. Qed.

(** * Further properties *)

(** ** What is on display, in every state an execution reaches *)

Lemma display_inv_same s s' :
  visible s' = visible s → markerMap s' = markerMap s →
  markerLayer s' = markerLayer s → hasMarkerLayer s' = hasMarkerLayer s →
  vehicles s' = vehicles s → display_inv s → display_inv s'.
Proof.
  intros Hv Hm Hl Hh Hvs [H1 H2]. split; rewrite ?Hv, ?Hm, ?Hl, ?Hh, ?Hvs; done.
Qed.

Lemma display_inv_cleared s :
  markerMap s = [] → markerLayer s = ∅ →
  (visible s = false → hasMarkerLayer s = false) → display_inv s.
Proof.
  intros Hm Hl Hh. split; [by auto|].
  intros vid Hin. rewrite Hm in Hin. by apply elem_of_nil in Hin.
Qed.

Lemma refresh_resume_display r s :
  display_inv s → display_inv (refresh_resume r s).
Proof.
  intros [H1 H2]. destruct r as [| | |data]; try done.
  destruct (visible s) eqn:Hv.
  - unfold refresh_resume. cbn [visible with_vehicles]. rewrite Hv.
    cbn [negb].
    destruct (reconcile_frame data (with_vehicles data s))
      as [(Hvs & _ & _ & Hvis & _) _].
    cbn [vehicles visible with_vehicles] in Hvs, Hvis. split.
    + rewrite Hvis, Hv. done.
    + intros vid Hin. rewrite Hvs.
      apply (elem_of_list_to_set (C := gset string)).
      rewrite <- (reconcile_keys data (with_vehicles data s)).
      by apply elem_of_list_to_set.
  - rewrite refresh_resume_hidden by done.
    destruct (H1 eq_refl) as (Hm & Hl & Hh).
    by apply display_inv_cleared.
Qed.

Lemma toggleVisibility_display s :
  display_inv s → display_inv (toggleVisibility s).
Proof.
  intros Hinv. unfold toggleVisibility. destruct (mapReady s); [|done].
  cbn [visible with_visible]. destruct (visible s) eqn:Hv; cbn [negb].
  - by apply display_inv_cleared.
  - destruct Hinv as [H1 H2]. split; [done|]. exact H2.
Qed.

Lemma stop_display s : display_inv s → display_inv (stop s).
Proof.
  intros [H1 _]. destruct (stop_cleared s) as (Hm & Hl & _ & Hh).
  destruct (stop_frame s) as [_ Hv].
  apply display_inv_cleared; [done..|].
  rewrite Hv, Hh. intros Hhid. destruct (H1 Hhid) as (_ & _ & ->).
  apply andb_false_r.
Qed.

Lemma step_display e y y' :
  display_inv (tracking y) → step e y = Some y' → display_inv (tracking y').
Proof.
  intros Hinv Hstep.
  destruct e as [ms| | | | |vid| | | |r|r|r]; cbn [step] in Hstep.
  - injection Hstep as <-. unfold on_state, launch_refresh. cbn [tracking].
    destruct (refresh_begin _); by apply (display_inv_same (tracking y)).
  - injection Hstep as <-. by apply stop_display.
  - injection Hstep as <-. unfold launch_refresh.
    by destruct (refresh_begin _).
  - destruct (timer (tracking y)); [|done]. injection Hstep as <-.
    unfold launch_refresh. by destruct (refresh_begin _).
  - by injection Hstep as <-.
  - injection Hstep as <-. cbn [tracking].
    apply (display_inv_same (tracking y)); [..|done];
      unfold selectVehicle_begin, remove_track;
      destruct (mapReady (tracking y)); try done;
      cbn; by destruct (trackPolyline (tracking y)).
  - injection Hstep as <-. cbn [tracking on_state].
    apply (display_inv_same (tracking y)); [..|done];
      unfold clearTrack, remove_track; cbn;
      by destruct (trackPolyline (tracking y)).
  - injection Hstep as <-.
    assert (display_inv (tracking (on_state toggleVisibility y))) as Ht
      by (by apply toggleVisibility_display).
    destruct (toggleVisibility_refreshes (tracking y)); [|done].
    unfold launch_refresh. by destruct (refresh_begin _).
  - injection Hstep as <-. cbn [tracking on_state]. unfold drop_map.
    destruct Hinv as [H1 H2]. split; [|exact H2].
    cbn. intros Hv. by destruct (H1 Hv) as (-> & -> & _).
  - destruct (refreshes y); [done|]. injection Hstep as <-.
    by apply refresh_resume_display.
  - destruct (selections y); [done|]. injection Hstep as <-. cbn [tracking].
    apply (display_inv_same (tracking y)); [..|done];
      destruct r as [| | |points]; try done;
      unfold selectVehicle_resume; by destruct (_ <? _)%nat.
  - destruct (registrations y); [done|]. injection Hstep as <-. cbn [tracking].
    apply (display_inv_same (tracking y)); [by destruct r..|done].
Qed.

Lemma run_display es y y' :
  display_inv (tracking y) → run es y = Some y' → display_inv (tracking y').
Proof.
  revert y. induction es as [|e es IH]; intros y Hinv Hrun; cbn [run] in Hrun.
  - by injection Hrun as <-.
  - destruct (step e y) as [y1|] eqn:Hstep; [|done].
    eapply IH; [|done]. by eapply step_display.
Qed.

Lemma display_inv_booted : display_inv (tracking booted).
Proof. by apply display_inv_cleared. Qed.

(** X1. In every state an execution reaches, while the vehicle layer is
    hidden the registry is empty, the layer group is empty and the layer
    group is not on the map: hiding destroys the markers, and nothing that
    runs while hidden (ticks, settled fetches, track selection) brings one
    back. *)
Theorem hidden_shows_nothing (es : list Event) (y : System) :
  run es booted = Some y →
  visible (tracking y) = false →
  markerMap (tracking y) = []
  ∧ markerLayer (tracking y) = ∅
  ∧ hasMarkerLayer (tracking y) = false.
Proof.
  intros Hrun Hv.
  by apply (proj1 (run_display es booted y display_inv_booted Hrun)).
Qed.

Lemma hidden_shows_nothing_witness :
  vehicles (tracking sample_hidden) = [sample_A]
  ∧ markerMap (tracking sample_hidden) = []
  ∧ markerLayer (tracking sample_hidden) = ∅
  ∧ hasMarkerLayer (tracking sample_hidden) = false.
Proof.
  split; [reflexivity|].
  apply (hidden_shows_nothing
           [CallStart 8000; RefreshSettles (Ok [sample_A; sample_B]);
            CallToggleVisibility; Tick; RefreshSettles (Ok [sample_A])]
           sample_hidden); vm_compute; reflexivity.
Defined.



(** X3. In every state an execution reaches: the registry has one entry per
    vehicle id; no two entries share a marker; the layer group holds exactly
    the markers of the registry; and the icon of every marker is the one of
    the heading and color cached in its entry. *)
Theorem registry_structure (es : list Event) (y : System) :
  run es booted = Some y →
  NoDup (JSMap.keys (markerMap (tracking y)))
  ∧ NoDup (stamps (markerMap (tracking y)))
  ∧ markerLayer (tracking y) = list_to_set (stamps (markerMap (tracking y)))
  ∧ (∀ k e, JSMap.get k (markerMap (tracking y)) = Some e →
            icon (entry_marker e)
            = makeVehicleIcon (entry_heading e) (entry_color e)).
Proof.
  intros Hrun.
  destruct (run_layer_ok es booted y wf_initial layer_ok_initial Hrun)
    as [[Hk Hc] [Hd _ Hl]].
  split; [done|]. split; [done|]. split; [done|].
  intros k e Hget. apply get_Some_elem in Hget.
  exact (proj1 (Forall_forall _ _) Hc _ Hget).
Qed.

Lemma registry_structure_witness :
  NoDup (JSMap.keys (markerMap (tracking sample_running)))
  ∧ NoDup (stamps (markerMap (tracking sample_running)))
  ∧ markerLayer (tracking sample_running)
    = list_to_set (stamps (markerMap (tracking sample_running)))
  ∧ (∀ k e, JSMap.get k (markerMap (tracking sample_running)) = Some e →
            icon (entry_marker e)
            = makeVehicleIcon (entry_heading e) (entry_color e)).
Proof.
  apply (registry_structure
           [CallStart 8000; RefreshSettles (Ok [sample_A; sample_B])]
           sample_running).
  vm_compute. reflexivity.
Defined.

(** ** Polling and track loading do not disturb each other *)

Lemma refresh_resume_keeps r s :
  selectedVehicleId (refresh_resume r s) = selectedVehicleId s
  ∧ trackPolyline (refresh_resume r s) = trackPolyline s
  ∧ mapPolylines (refresh_resume r s) = mapPolylines s
  ∧ registeredVehicles (refresh_resume r s) = registeredVehicles s
  ∧ visible (refresh_resume r s) = visible s
  ∧ timer (refresh_resume r s) = timer s
  ∧ mapReady (refresh_resume r s) = mapReady s.
Proof.
  destruct r as [| | |data]; try done.
  unfold refresh_resume. destruct (negb _); [done|].
  destruct (reconcile_frame data (with_vehicles data s))
    as [(_ & ? & ? & ? & ? & ? & ? & ?) _].
  done.
Qed.

Lemma selectVehicle_resume_keeps r s :
  vehicles (selectVehicle_resume r s) = vehicles s
  ∧ markerMap (selectVehicle_resume r s) = markerMap s
  ∧ markerLayer (selectVehicle_resume r s) = markerLayer s
  ∧ hasMarkerLayer (selectVehicle_resume r s) = hasMarkerLayer s
  ∧ registeredVehicles (selectVehicle_resume r s) = registeredVehicles s
  ∧ visible (selectVehicle_resume r s) = visible s
  ∧ selectedVehicleId (selectVehicle_resume r s) = selectedVehicleId s.
Proof.
  destruct r as [| | |points]; try done.
  unfold selectVehicle_resume. by destruct (_ <? _)%nat.
Qed.

Lemma selectVehicle_begin_keeps vid s :
  vehicles (selectVehicle_begin vid s) = vehicles s
  ∧ markerMap (selectVehicle_begin vid s) = markerMap s
  ∧ markerLayer (selectVehicle_begin vid s) = markerLayer s
  ∧ hasMarkerLayer (selectVehicle_begin vid s) = hasMarkerLayer s
  ∧ registeredVehicles (selectVehicle_begin vid s) = registeredVehicles s
  ∧ visible (selectVehicle_begin vid s) = visible s.
Proof.
  unfold selectVehicle_begin, remove_track.
  destruct (mapReady s); [|done]. cbn. by destruct (trackPolyline s).
Qed.

(** X9. A [refresh], whatever its fetch yields, leaves the selection, the
    drawn track and the polylines on the map as they are; and a
    [selectVehicle], whatever its fetch yields, leaves [vehicles], the
    registry, the layer group and its attachment to the map as they are: the
    poll and the track loader write disjoint parts of the state. *)
Theorem poll_and_track_disjoint (s : State)
    (r r' : FetchResult (list VehiclePosition)) (vid : string) :
  (selectedVehicleId (refresh r s) = selectedVehicleId s
   ∧ trackPolyline (refresh r s) = trackPolyline s
   ∧ mapPolylines (refresh r s) = mapPolylines s)
  ∧ (vehicles (selectVehicle r' vid s) = vehicles s
     ∧ markerMap (selectVehicle r' vid s) = markerMap s
     ∧ markerLayer (selectVehicle r' vid s) = markerLayer s
     ∧ hasMarkerLayer (selectVehicle r' vid s) = hasMarkerLayer s).
Proof.
  split.
  - unfold refresh. destruct (refresh_begin s); [|done].
    by destruct (refresh_resume_keeps r s) as (? & ? & ? & _).
  - unfold selectVehicle. destruct (mapReady s); [|done].
    destruct (selectVehicle_resume_keeps r' (selectVehicle_begin vid s))
      as (-> & -> & -> & -> & _).
    by destruct (selectVehicle_begin_keeps vid s) as (? & ? & ? & ? & _).
Qed.

(** ** One track at a time, when selections do not overlap *)

Lemma remove_track_nil s :
  mapPolylines s = [] → mapPolylines (remove_track s) = [].
Proof.
  intros Hm. unfold remove_track. destruct (trackPolyline s); [|done].
  cbn. by rewrite Hm.
Qed.


Lemma stop_polylines s :
  (single_track s ∨ mapPolylines s = []) → mapPolylines (stop s) = [].
Proof.
  intros H.
  assert (mapPolylines (stop s) = mapPolylines (remove_track s)) as ->.
  { destruct s as [? ? ? ? ? ? tp ? mr ? ? ? ?].
    unfold stop, remove_track. cbn. by destruct tp, mr. }
  destruct H; [by apply remove_track_single | by apply remove_track_nil].
Qed.

Lemma clearTrack_polylines s :
  (single_track s ∨ mapPolylines s = []) → mapPolylines (clearTrack s) = [].
Proof.
  intros H. unfold clearTrack. cbn.
  destruct H; [by apply remove_track_single | by apply remove_track_nil].
Qed.





(** ** clearTrack *)

(** X5. [clearTrack] leaves no selection and no track reference; from a
    state that obeys the track discipline it leaves no polyline on the map,
    in particular right after a [selectVehicle] that ran to completion; and
    a second [clearTrack] changes nothing, not even a Leaflet call. *)
Theorem clearTrack_clears (s : State) :
  selectedVehicleId (clearTrack s) = None
  ∧ trackPolyline (clearTrack s) = None
  ∧ clearTrack (clearTrack s) = clearTrack s
  ∧ (single_track s →
     mapPolylines (clearTrack s) = []
     ∧ ∀ r vid, mapPolylines (clearTrack (selectVehicle r vid s)) = []).
Proof.
  split; [done|]. split; [done|]. split.
  - destruct s as [? ? ? ? ? ? tp ? ? ? ? ? ?].
    unfold clearTrack, remove_track. cbn. by destruct tp.
  - intros Hs. split.
    + apply clearTrack_polylines. by left.
    + intros r vid. apply clearTrack_polylines. left.
      by apply selectVehicle_single.
Qed.

Lemma clearTrack_clears_witness :
  mapPolylines (clearTrack (selectVehicle (Ok sample_track_A) "A" initial))
  = [].
Proof.
  apply (proj2 (proj2 (proj2 (proj2 (clearTrack_clears initial)))
                  (or_introl eq_refl))).
Defined.

(** ** Snapshots that render alike *)

Lemma same_rendering_ids data data' :
  same_rendering data data' → ids data' = ids data.
Proof.
  induction 1 as [|u v data data' [Hid _] _ IH]; [done|].
  rewrite !fmap_cons. by rewrite IH, Hid.
Qed.

Lemma same_rendering_back data data' v :
  same_rendering data data' → v ∈ data' →
  ∃ u, u ∈ data ∧ vehicleId u = vehicleId v ∧ rendered u = rendered v.
Proof.
  induction 1 as [|u w data data' [Hid Hr] _ IH]; intros Hin.
  - by apply elem_of_nil in Hin.
  - apply elem_of_cons in Hin as [->|Hin].
    + exists u. split; [apply list_elem_of_here | done].
    + destruct (IH Hin) as (u' & Hu' & ?). exists u'.
      split; [by apply list_elem_of_further | done].
Qed.

(** X7. When a second snapshot reports the same vehicles with the same
    coordinates, heading (null read as 0) and speed as the first, which
    repeats no id inconsistently, the second [refresh] stores it in
    [vehicles] and does nothing else: no Leaflet call, no write to the
    registry.  In particular a new [time], or a heading that goes from null
    to 0, never reaches the popup of the marker. *)
Theorem refresh_same_rendering (s : State)
    (data data' : list VehiclePosition) :
  consistent data → same_rendering data data' →
  visible s = true → mapReady s = true →
  refresh (Ok data') (refresh (Ok data) s)
  = with_vehicles data' (refresh (Ok data) s)
  ∧ markerMap (refresh (Ok data') (refresh (Ok data) s))
    = markerMap (refresh (Ok data) s)
  ∧ calls (refresh (Ok data') (refresh (Ok data) s))
    = calls (refresh (Ok data) s).
Proof.
  intros Hcons Hsame Hv Hm.
  assert (refresh (Ok data') (refresh (Ok data) s)
          = with_vehicles data' (refresh (Ok data) s)) as Heq.
  { destruct (refresh_frame data s Hv Hm) as (Hr & Hv1 & Hm1 & _ & Hl).
    rewrite (refresh_visible data' _ Hv1 Hm1).
    apply reconcile_fixed; cbn [markerMap hasMarkerLayer with_vehicles].
    - intros v Hin.
      destruct (same_rendering_back data data' v Hsame Hin)
        as (u & Hu & Hid & Hren).
      assert (knownIds_of (with_vehicles data' (refresh (Ok data) s))
              = knownIds_of (with_vehicles data s)) as ->.
      { unfold knownIds_of. cbn [registeredVehicles with_vehicles].
        by rewrite Hr. }
      rewrite (refresh_visible data s Hv Hm).
      destruct (reconcile_synced data (with_vehicles data s) Hcons u Hu)
        as (e & Hget & Hs).
      exists e. rewrite <- Hid. split; [done|].
      by apply (synced_rendered _ v u).
    - rewrite (same_rendering_ids data data' Hsame).
      by apply refresh_keys.
    - done. }
  rewrite Heq. done.
Qed.

Lemma refresh_same_rendering_witness :
  refresh (Ok [sample_A_later]) (refresh (Ok [sample_A]) initial)
  = with_vehicles [sample_A_later] (refresh (Ok [sample_A]) initial)
  ∧ markerMap (refresh (Ok [sample_A_later]) (refresh (Ok [sample_A]) initial))
    = markerMap (refresh (Ok [sample_A]) initial)
  ∧ calls (refresh (Ok [sample_A_later]) (refresh (Ok [sample_A]) initial))
    = calls (refresh (Ok [sample_A]) initial).
Proof.
  apply (refresh_same_rendering initial [sample_A] [sample_A_later]);
    [| |reflexivity|reflexivity].
  - apply NoDup_ids_consistent. apply NoDup_singleton.
  - repeat constructor.
Defined.

(** ** A pass keeps the marker objects *)

Lemma update_entry_same_marker v h c e :
  same_marker e (update_entry v h c e).1.
Proof.
  unfold same_marker, update_entry.
  by destruct (_ || _), (_ || _), (_ || _).
Qed.

Lemma same_marker_trans e1 e2 e3 :
  same_marker e1 e2 → same_marker e2 e3 → same_marker e1 e3.
Proof.
  unfold same_marker. intros (? & ? & ? & ?) (? & ? & ? & ?).
  repeat split; congruence.
Qed.

Lemma reconcile_one_same_marker K s v k e :
  JSMap.get k (markerMap s) = Some e →
  ∃ e', JSMap.get k (markerMap (reconcile_one K s v)) = Some e'
        ∧ same_marker e e'.
Proof.
  intros Hget. destruct (decide (k = vehicleId v)) as [->|Hne].
  - rewrite (reconcile_one_existing K s v e Hget).
    cbn [markerMap log with_markerMap]. rewrite get_set_eq.
    eexists. split; [done|]. apply update_entry_same_marker.
  - rewrite reconcile_one_get_other by done. exists e. by repeat split.
Qed.

Lemma reconcile_loop_same_marker K data s seen k e :
  JSMap.get k (markerMap s) = Some e →
  ∃ e', JSMap.get k (markerMap (reconcile_loop K data (s, seen)).1) = Some e'
        ∧ same_marker e e'.
Proof.
  revert s seen e. induction data as [|v data IH]; intros s seen e Hget.
  - exists e. by repeat split.
  - rewrite reconcile_loop_cons.
    destruct (reconcile_one_same_marker K s v k e Hget) as (e1 & Hget1 & H1).
    destruct (IH _ ({[vehicleId v]} ∪ seen) e1 Hget1) as (e2 & Hget2 & H2).
    exists e2. split; [done|]. by eapply same_marker_trans.
Qed.

(** X6. A [refresh] (visible, map handle, successful fetch) never replaces
    the marker of a vehicle that stays: an entry whose id the snapshot
    reports keeps its marker object, with its tooltip and click handler; and
    an entry whose id the snapshot does not report is gone. *)
Theorem refresh_keeps_markers (s : State) (data : list VehiclePosition)
    (vid : string) (e : MarkerEntry) :
  visible s = true → mapReady s = true →
  JSMap.get vid (markerMap s) = Some e →
  (vid ∈ ids data →
   ∃ e', JSMap.get vid (markerMap (refresh (Ok data) s)) = Some e'
         ∧ same_marker e e')
  ∧ (vid ∉ ids data →
     JSMap.get vid (markerMap (refresh (Ok data) s)) = None).
Proof.
  intros Hv Hm Hget. split.
  - intros Hin. rewrite (refresh_visible data s Hv Hm).
    rewrite reconcile_get_seen by done.
    by apply reconcile_loop_same_marker.
  - intros Hn. apply get_None_keys. intros Hk.
    apply Hn. apply (elem_of_list_to_set (C := gset string)).
    rewrite <- (refresh_keys data s Hv Hm). by apply elem_of_list_to_set.
Qed.

Lemma refresh_keeps_markers_witness :
  ∃ e e',
    JSMap.get "A" (markerMap (refresh (Ok [sample_A; sample_B]) initial))
    = Some e
    ∧ JSMap.get "A"
        (markerMap (refresh (Ok sample_duplicates)
                      (refresh (Ok [sample_A; sample_B]) initial)))
      = Some e'
    ∧ same_marker e e'.
Proof.
  eexists.
  destruct (proj1 (refresh_keeps_markers
                     (refresh (Ok [sample_A; sample_B]) initial)
                     sample_duplicates "A" _ eq_refl eq_refl eq_refl))
    as (e' & Hget & Hsame).
  - apply list_elem_of_here.
  - exists e'. split; [reflexivity|]. split; [exact Hget | exact Hsame].
Defined.

(** ** Hiding and showing the layer *)

Lemma toggleVisibility_hide s :
  visible s = true → mapReady s = true →
  toggleVisibility s = clear_markers (detach_layer (with_visible false s)).
Proof. intros Hv Hm. unfold toggleVisibility. by rewrite Hm, Hv. Qed.

Lemma toggleVisibility_show s :
  visible s = false → mapReady s = true →
  toggleVisibility s = with_visible true s.
Proof. intros Hv Hm. unfold toggleVisibility. by rewrite Hm, Hv. Qed.

Lemma reconcile_one_stamps_from n K s v :
  (n ≤ nextStamp s)%nat →
  Forall (λ kv, (n ≤ stamp (entry_marker kv.2))%nat) (markerMap s) →
  (n ≤ nextStamp (reconcile_one K s v))%nat
  ∧ Forall (λ kv, (n ≤ stamp (entry_marker kv.2))%nat)
      (markerMap (reconcile_one K s v)).
Proof.
  intros Hn Hall.
  destruct (JSMap.get (vehicleId v) (markerMap s)) as [e|] eqn:Hget.
  - rewrite (reconcile_one_existing K s v e Hget).
    cbn [markerMap nextStamp log with_markerMap]. split; [done|].
    apply Forall_set; [done|]. cbn [snd]. rewrite update_entry_stamp.
    apply get_Some_elem in Hget.
    exact (proj1 (Forall_forall _ _) Hall _ Hget).
  - rewrite (reconcile_one_new K s v Hget). unfold create_entry.
    cbn [markerMap nextStamp log with_markerMap with_markerLayer
         with_nextStamp].
    split; [lia|]. by apply Forall_set.
Qed.

Lemma reconcile_loop_stamps_from n K data s seen :
  (n ≤ nextStamp s)%nat →
  Forall (λ kv, (n ≤ stamp (entry_marker kv.2))%nat) (markerMap s) →
  Forall (λ kv, (n ≤ stamp (entry_marker kv.2))%nat)
    (markerMap (reconcile_loop K data (s, seen)).1).
Proof.
  revert s seen. induction data as [|v data IH]; intros s seen Hn Hall;
    [done|].
  rewrite reconcile_loop_cons.
  destruct (reconcile_one_stamps_from n K s v Hn Hall) as [Hn1 Hall1].
  by apply IH.
Qed.

Lemma reconcile_stamps_from data s k e :
  markerMap s = [] →
  JSMap.get k (markerMap (reconcile data s)) = Some e →
  (nextStamp s ≤ stamp (entry_marker e))%nat.
Proof.
  intros Hempty Hget. apply get_Some_elem in Hget.
  rewrite reconcile_markerMap in Hget.
  apply list_elem_of_filter in Hget as [_ Hin].
  assert (Forall (λ kv, (nextStamp s ≤ stamp (entry_marker kv.2))%nat)
            (markerMap (reconcile_loop (knownIds_of s) data (s, ∅)).1))
    as Hall.
  { apply reconcile_loop_stamps_from; [done|]. rewrite Hempty. constructor. }
  exact (proj1 (Forall_forall _ _) Hall _ Hin).
Qed.

Lemma wf_entry_coherent s k e :
  wf s → JSMap.get k (markerMap s) = Some e → coherent e.
Proof.
  intros [_ Hc] Hget. apply get_Some_elem in Hget.
  exact (proj1 (Forall_forall _ _) Hc _ Hget).
Qed.

(** X8. Hiding the layer after a [refresh] destroys every marker; showing it
    again launches a [refresh], and when that one brings the same snapshot
    the registry has the same ids and, for every position, an entry with
    the same coordinates, icon and cached heading, speed and color as before
    the hiding, on a marker object created anew. *)
Theorem hide_show_rebuilds (s : State) (data : list VehiclePosition) :
  wf s → consistent data → visible s = true → mapReady s = true →
  let s1 := refresh (Ok data) s in
  let s2 := toggleVisibility s1 in
  let s3 := toggleVisibility s2 in
  let s4 := refresh_resume (Ok data) s3 in
  (visible s2 = false ∧ markerMap s2 = [] ∧ markerLayer s2 = ∅
   ∧ hasMarkerLayer s2 = false)
  ∧ toggleVisibility_refreshes s2 = true
  ∧ keyset s4 = keyset s1
  ∧ ∀ v, v ∈ data →
      ∃ e1 e4,
        JSMap.get (vehicleId v) (markerMap s1) = Some e1
        ∧ JSMap.get (vehicleId v) (markerMap s4) = Some e4
        ∧ latlng (entry_marker e4) = latlng (entry_marker e1)
        ∧ icon (entry_marker e4) = icon (entry_marker e1)
        ∧ entry_heading e4 = entry_heading e1
        ∧ entry_speed e4 = entry_speed e1
        ∧ entry_color e4 = entry_color e1
        ∧ (nextStamp s1 ≤ stamp (entry_marker e4))%nat.
Proof.
  intros Hwf Hcons Hv Hm s1 s2 s3 s4.
  destruct (refresh_frame data s Hv Hm) as (Hr1 & Hv1 & Hm1 & _).
  fold s1 in Hr1, Hv1, Hm1.
  assert (s2 = clear_markers (detach_layer (with_visible false s1))) as Hs2
    by (by apply toggleVisibility_hide).
  assert (visible s2 = false ∧ mapReady s2 = true ∧ markerMap s2 = []
          ∧ markerLayer s2 = ∅ ∧ hasMarkerLayer s2 = false
          ∧ nextStamp s2 = nextStamp s1
          ∧ registeredVehicles s2 = registeredVehicles s1)
    as (Hv2 & Hm2 & Hmm2 & Hml2 & Hl2 & Hn2 & Hr2)
    by (by rewrite Hs2).
  assert (s3 = with_visible true s2) as Hs3
    by (by apply toggleVisibility_show).
  set (s3' := with_vehicles data s3).
  assert (s4 = reconcile data s3') as Hs4.
  { unfold s4, s3'. rewrite Hs3. unfold refresh_resume.
    by cbn [visible with_vehicles with_visible negb]. }
  assert (markerMap s3' = [] ∧ nextStamp s3' = nextStamp s1
          ∧ knownIds_of s3' = knownIds_of (with_vehicles data s))
    as (Hmm3 & Hn3 & Hk3).
  { unfold s3'. rewrite Hs3. cbn. unfold knownIds_of. cbn.
    by rewrite Hmm2, Hn2, Hr2, Hr1. }
  split; [done|]. split.
  { unfold toggleVisibility_refreshes. by rewrite Hm2, Hv2. }
  split.
  { rewrite Hs4, reconcile_keys. unfold s1. by rewrite refresh_keys. }
  intros v Hin.
  assert (s1 = reconcile data (with_vehicles data s)) as Hs1
    by (by apply refresh_visible).
  destruct (reconcile_synced data (with_vehicles data s) Hcons v Hin)
    as (e1 & Hget1 & (Hll1 & Hh1 & Hsp1 & Hc1)).
  destruct (reconcile_synced data s3' Hcons v Hin)
    as (e4 & Hget4 & (Hll4 & Hh4 & Hsp4 & Hc4)).
  rewrite Hk3 in Hc4. rewrite <- Hs1 in Hget1. rewrite <- Hs4 in Hget4.
  exists e1, e4. split; [done|]. split; [done|].
  assert (coherent e1) as Hco1.
  { apply (wf_entry_coherent s1 (vehicleId v)); [|done].
    by apply refresh_wf. }
  assert (coherent e4) as Hco4.
  { apply (wf_entry_coherent s4 (vehicleId v)); [|done].
    rewrite Hs4. by apply reconcile_wf, wf_empty_markerMap. }
  unfold coherent in Hco1, Hco4.
  repeat split; try congruence.
  rewrite <- Hn3. apply (reconcile_stamps_from data s3' (vehicleId v));
    [done|]. by rewrite <- Hs4.
Qed.

Lemma hide_show_rebuilds_witness :
  let s1 := refresh (Ok [sample_A; sample_B]) initial in
  let s4 :=
    refresh_resume (Ok [sample_A; sample_B])
      (toggleVisibility (toggleVisibility s1)) in
  markerMap (toggleVisibility s1) = [] ∧ keyset s4 = keyset s1.
Proof.
  intros s1 s4.
  assert (consistent [sample_A; sample_B]) as Hcons.
  { apply NoDup_ids_consistent. vm_compute.
    repeat (constructor;
            [rewrite ?elem_of_cons, ?elem_of_nil; intuition discriminate|]).
    constructor. }
  destruct (hide_show_rebuilds initial [sample_A; sample_B]
              wf_initial Hcons eq_refl eq_refl)
    as ((_ & Hempty & _) & _ & Hkeys & _).
  exact (conj Hempty Hkeys).
Defined.

(** ** The viewer's lists of known and unknown vehicles *)

Lemma find_registered_Some vid rvs :
  vid ∈ (rv_vehicleId <$> rvs) → is_Some (find_registered vid rvs).
Proof.
  unfold find_registered. induction rvs as [|rv rvs IH]; intros Hin.
  - by apply elem_of_nil in Hin.
  - rewrite fmap_cons in Hin. cbn [find].
    case_bool_decide as Hrv; [by eexists|].
    apply elem_of_cons in Hin as [->|Hin]; [done | by apply IH].
Qed.

Lemma find_registered_spec vid rvs rv :
  find_registered vid rvs = Some rv → rv ∈ rvs ∧ rv_vehicleId rv = vid.
Proof.
  intros Hf. apply find_some in Hf as [Hin Hb].
  split; [by apply list_elem_of_In | by apply bool_decide_eq_true in Hb].
Qed.

(** X10. The viewer's list of known vehicles never throws: every position
    it keeps finds a registered vehicle, so the list is the positions of
    [vehicles] whose id is registered, in order, each with the name of the
    first registered vehicle of that id.  With the list of unknown vehicles
    it splits [vehicles]: every position is in exactly one of the two. *)
Theorem vehicle_lists_partition (s : State) :
  ∃ l, knownVehiclesWithGps s = Some l
       ∧ Forall2
           (λ v y, y.1 = v
                   ∧ ∃ rv, find_registered (vehicleId v)
                             (registeredVehicles s) = Some rv
                           ∧ y.2 = rv_name rv
                           ∧ rv ∈ registeredVehicles s
                           ∧ rv_vehicleId rv = vehicleId v)
           (filter (λ v, vehicleId v ∈ knownIds_of s) (vehicles s)) l
       ∧ l.*1 ++ unknownVehiclesWithGps s ≡ₚ vehicles s
       ∧ (∀ v, v ∈ vehicles s →
               (v ∈ l.*1 ↔ ¬ v ∈ unknownVehiclesWithGps s)).
Proof.
  set (f := λ v : VehiclePosition,
         match find_registered (vehicleId v) (registeredVehicles s) with
         | Some rv => Some (v, rv_name rv)
         | None => None
         end).
  set (known := filter (λ v, vehicleId v ∈ knownIds_of s) (vehicles s)).
  assert (is_Some (mapM f known)) as [l Hl].
  { apply mapM_is_Some_2, Forall_forall. intros v Hv.
    apply list_elem_of_filter in Hv as [Hk _].
    apply elem_of_knownIds_of, find_registered_Some in Hk as [rv Hrv].
    unfold f. cbn. rewrite Hrv. by eexists. }
  exists l. split; [exact Hl|].
  apply mapM_Some_1 in Hl.
  assert (Forall2 (λ v y, y.1 = v) known l) as Hfst.
  { eapply Forall2_impl; [exact Hl|]. intros v y Hy. unfold f in Hy.
    destruct (find_registered _ _); [|done]. by injection Hy as <-. }
  assert (l.*1 = known) as Heq.
  { clear Hl. induction Hfst as [|v y k l' Hy _ IH]; [done|].
    rewrite fmap_cons. by rewrite IH, Hy. }
  split; [|split].
  - eapply Forall2_impl; [exact Hl|]. intros v y Hy. unfold f in Hy.
    destruct (find_registered _ _) as [rv|] eqn:Hrv; [|done].
    injection Hy as <-. split; [done|]. exists rv.
    destruct (find_registered_spec _ _ _ Hrv) as [? ?]. done.
  - rewrite Heq. apply filter_app_complement.
  - intros v Hv. rewrite Heq. unfold known, unknownVehiclesWithGps.
    rewrite !list_elem_of_filter. split.
    + intros [Hk _] [Hn _]. done.
    + intros Hn. split; [|done].
      destruct (decide (vehicleId v ∈ knownIds_of s)) as [|Hnk]; [done|].
      destruct Hn. by split.
Qed.

(** X11. Right after a [refresh] (visible, map handle, successful fetch) the
    map and the viewer's lists agree: the marker of a position is orange
    exactly when the position is in the list of known vehicles, and gray
    exactly when it is in the list of unknown vehicles. *)
Theorem lists_match_marker_colors (s : State) (data : list VehiclePosition)
    (v : VehiclePosition) :
  visible s = true → mapReady s = true → v ∈ data →
  let s' := refresh (Ok data) s in
  ∃ e, JSMap.get (vehicleId v) (markerMap s') = Some e
       ∧ (entry_color e = ACCENT_COLOR
          ↔ v ∈ filter (λ v, vehicleId v ∈ knownIds_of s') (vehicles s'))
       ∧ (entry_color e = NEUTRAL_COLOR ↔ v ∈ unknownVehiclesWithGps s').
Proof.
  intros Hv Hm Hin s'.
  destruct (refresh_entry_color data s v Hv Hm Hin) as (e & Hget & Hc).
  destruct (refresh_frame data s Hv Hm) as (Hr & _ & _ & Hvs & _).
  fold s' in Hr, Hvs.
  assert (knownIds_of s' = knownIds_of s) as Hk
    by (unfold knownIds_of; by rewrite Hr).
  exists e. split; [done|]. unfold unknownVehiclesWithGps.
  rewrite !list_elem_of_filter, Hk, Hvs, Hc. unfold color_of.
  case_bool_decide; split; split; intros H'; try done;
    (by destruct H') || (by split).
Qed.

Lemma lists_match_marker_colors_witness :
  ∃ e, JSMap.get "A" (markerMap sample_listed) = Some e
       ∧ entry_color e = ACCENT_COLOR.
Proof.
  destruct (lists_match_marker_colors
              (fetchRegisteredVehicles_resume
                 (Ok [mkRegisteredVehicle 7 "A" "Reach stacker" None None
                        "2024-01-01T00:00:00Z"]) initial)
              [sample_A; sample_B] sample_A eq_refl eq_refl)
    as (e & Hget & Hacc & _).
  - apply list_elem_of_here.
  - exists e. split; [exact Hget|]. apply Hacc.
    apply list_elem_of_filter. split.
    + apply elem_of_knownIds_of. vm_compute. apply list_elem_of_here.
    + apply list_elem_of_here.
Defined.

(** ** The mock GPS tool *)

Lemma remove_pending_map w :
  pending_inv w →
  pendingOnMap (remove_pending w) = []
  ∧ pendingPoint (remove_pending w) = pendingPoint w
  ∧ pendingMarker (remove_pending w) = pendingMarker w
  ∧ composable (remove_pending w) = composable w.
Proof.
  destruct w as [c ct mm id sp n lm pp pm om vc].
  intros [_ Hmap]. unfold remove_pending. cbn in *.
  destruct pm as [st|]; cbn.
  - split; [|done].
    destruct Hmap as [->|(st' & -> & Heq)]; [done|].
    injection Heq as ->. rewrite filter_cons, decide_False; [done|].
    by intros Hne.
  - split; [|done]. destruct Hmap as [?|(st' & _ & ?)]; done.
Qed.

Lemma cancelMockPoint_inv w : pending_inv w → pending_inv (cancelMockPoint w).
Proof.
  intros Hinv. destruct (remove_pending_map w Hinv) as (Hm & _).
  unfold cancelMockPoint, forget_pending. split; cbn; [done | by left].
Qed.

Lemma pending_inv_vlog cs w : pending_inv w → pending_inv (vlog cs w).
Proof. done. Qed.

Lemma mockClickHandler_inv ll w :
  pending_inv w → pending_inv (mockClickHandler ll w).
Proof.
  intros Hinv. unfold mockClickHandler.
  set (w1 := if mapReady (composable w) then vlog [ClosePopup] w else w).
  assert (pending_inv (vlog [ResetHighlight] w1)) as Hinv1
    by (unfold w1; by destruct (mapReady (composable w))).
  destruct (remove_pending_map _ Hinv1) as (Hm & Hpp & Hpm & _).
  destruct Hinv1 as [Hiff _].
  destruct (mapReady (composable (remove_pending _))).
  - split; cbn; [done|]. right. eexists. by rewrite Hm.
  - split; cbn; [by rewrite Hpp, Hpm | by left].
Qed.

(** X12. The pending point and the pending marker of the mock tool go
    together through every operation of the tool, and the map never shows
    more than one pending marker, the one [pendingMarker] refers to: a click
    replaces the previous pending marker, saving, cancelling, clearing and
    leaving mock mode remove it. *)
Theorem mock_pending_invariant (w : Viewer) :
  pending_inv w →
  pending_inv (cancelMockPoint w)
  ∧ pending_inv (toggleMockMode w)
  ∧ (∀ ll, pending_inv (mockClickHandler ll w))
  ∧ (∀ bearing, pending_inv (saveMockPoint_begin bearing w).1)
  ∧ (∀ r, pending_inv (saveMockPoint_resume r w).1)
  ∧ (∀ confirmed, pending_inv (clearMockData_begin confirmed w).1)
  ∧ (∀ r, pending_inv (clearMockData_resume r w).1)
  ∧ (pendingOnMap (cancelMockPoint w) = []
     ∧ ∀ bearing, pendingOnMap (saveMockPoint_begin bearing w).1 = []
                  ∨ pendingPoint w = None).
Proof.
  intros Hinv.
  pose proof (cancelMockPoint_inv w Hinv) as Hcancel.
  destruct (remove_pending_map w Hinv) as (Hm & _).
  split; [done|]. split.
  { unfold toggleMockMode. destruct (negb (mockMode w)).
    - repeat match goal with
             | |- context [if ?b then _ else _] => destruct b
             end; exact Hinv.
    - repeat match goal with
             | |- context [if ?b then _ else _] => destruct b
             end; exact Hcancel. }
  split; [intros ll; by apply mockClickHandler_inv|]. split.
  { intros bearing. unfold saveMockPoint_begin.
    destruct (pendingPoint w) as [ll|] eqn:Hpp; [|exact Hinv]. cbn [fst].
    apply cancelMockPoint_inv. destruct Hinv as [Hiff Hmap].
    split; cbn; [by rewrite <- Hpp | exact Hmap]. }
  split; [intros [|[|]]; exact Hinv|]. split.
  { intros [|]; [exact Hcancel | exact Hinv]. }
  split; [intros [|[|]]; exact Hinv|]. split; [exact Hm|].
  intros bearing. unfold saveMockPoint_begin.
  destruct (pendingPoint w) as [ll|] eqn:Hpp; [|by right]. left. cbn [fst].
  refine (proj1 (remove_pending_map _ _)). destruct Hinv as [Hiff Hmap].
  split; cbn; [by rewrite <- Hpp | exact Hmap].
Qed.

Lemma pending_inv_mounted : pending_inv mounted.
Proof. split; [done | by left]. Qed.

Lemma mock_pending_invariant_witness :
  pendingOnMap
    (mockClickHandler (mkLatLng 3 4) (mockClickHandler (mkLatLng 1 2) mounted))
  = [1%nat]
  ∧ pending_inv
      (mockClickHandler (mkLatLng 3 4)
         (mockClickHandler (mkLatLng 1 2) mounted)).
Proof.
  split; [reflexivity|].
  apply (mock_pending_invariant (mockClickHandler (mkLatLng 1 2) mounted)).
  apply (mock_pending_invariant mounted). apply pending_inv_mounted.
Defined.

Lemma saveMockPoint_begin_request bearing w p :
  pendingPoint w = Some p →
  (saveMockPoint_begin bearing w).2
  = Some (mkMockPoint (mockVehicleId w) (ll_lat p) (ll_lng p) (mockSpeed w)
            (match lastMockPoints w !! mockVehicleId w with
             | Some prev => Some (bearing prev p)
             | None => None
             end)).
Proof. intros Hpp. unfold saveMockPoint_begin. by rewrite Hpp. Qed.

Lemma saveMockPoint_begin_fields bearing w p :
  pendingPoint w = Some p →
  pendingPoint (saveMockPoint_begin bearing w).1 = None
  ∧ lastMockPoints (saveMockPoint_begin bearing w).1
    = <[mockVehicleId w := p]> (lastMockPoints w)
  ∧ mockVehicleId (saveMockPoint_begin bearing w).1 = mockVehicleId w
  ∧ mockSpeed (saveMockPoint_begin bearing w).1 = mockSpeed w
  ∧ composable (saveMockPoint_begin bearing w).1 = composable w.
Proof.
  intros Hpp. unfold saveMockPoint_begin. rewrite Hpp.
  unfold forget_pending, remove_pending.
  cbn [fst pendingMarker]. by destruct (pendingMarker w).
Qed.

Lemma saveMockPoint_resume_fields r w :
  lastMockPoints (saveMockPoint_resume r w).1 = lastMockPoints w
  ∧ mockVehicleId (saveMockPoint_resume r w).1 = mockVehicleId w
  ∧ mockSpeed (saveMockPoint_resume r w).1 = mockSpeed w
  ∧ composable (saveMockPoint_resume r w).1 = composable w
  ∧ pendingPoint (saveMockPoint_resume r w).1 = pendingPoint w.
Proof. by destruct r as [|[|]]. Qed.

Lemma mockClickHandler_fields q w :
  mapReady (composable w) = true →
  pendingPoint (mockClickHandler q w) = Some q
  ∧ lastMockPoints (mockClickHandler q w) = lastMockPoints w
  ∧ mockVehicleId (mockClickHandler q w) = mockVehicleId w
  ∧ mockSpeed (mockClickHandler q w) = mockSpeed w
  ∧ mockPointCount (mockClickHandler q w) = mockPointCount w.
Proof.
  intros Hm. unfold mockClickHandler. rewrite Hm.
  assert (∀ w', composable (remove_pending w') = composable w'
                ∧ lastMockPoints (remove_pending w') = lastMockPoints w'
                ∧ mockVehicleId (remove_pending w') = mockVehicleId w'
                ∧ mockSpeed (remove_pending w') = mockSpeed w'
                ∧ mockPointCount (remove_pending w') = mockPointCount w')
    as Hrm.
  { intros w'. unfold remove_pending. by destruct (pendingMarker w'). }
  destruct (Hrm (vlog [ResetHighlight] (vlog [ClosePopup] w)))
    as (Hc & Hl & Hi & Hs & Hn).
  rewrite Hc. cbn [composable vlog]. rewrite Hm.
  cbn [pendingPoint lastMockPoints mockVehicleId mockSpeed mockPointCount].
  by rewrite Hl, Hi, Hs, Hn.
Qed.

(** X13. Saving a pending point sends it with the tool's vehicle id and
    speed, and with a null heading exactly when no point was recorded for
    that id before.  The point is recorded before the request and stays
    recorded whatever the reply: the next point saved for the same id is
    sent with the heading from this one, also when this one was rejected. *)
Theorem mock_heading_from_last_point (bearing : LatLng → LatLng → number)
    (w : Viewer) (p q : LatLng) (r : Reply) :
  pendingPoint w = Some p → mapReady (composable w) = true →
  let vid := mockVehicleId w in
  let w1 := (saveMockPoint_begin bearing w).1 in
  let w2 := (saveMockPoint_resume r w1).1 in
  let w3 := mockClickHandler q w2 in
  (saveMockPoint_begin bearing w).2
  = Some (mkMockPoint vid (ll_lat p) (ll_lng p) (mockSpeed w)
            (match lastMockPoints w !! vid with
             | Some prev => Some (bearing prev p)
             | None => None
             end))
  ∧ pendingPoint w1 = None
  ∧ lastMockPoints w1 !! vid = Some p
  ∧ lastMockPoints w2 = lastMockPoints w1
  ∧ (saveMockPoint_begin bearing w3).2
    = Some (mkMockPoint vid (ll_lat q) (ll_lng q) (mockSpeed w)
              (Some (bearing p q))).
Proof.
  intros Hpp Hm vid w1 w2 w3.
  destruct (saveMockPoint_begin_fields bearing w p Hpp)
    as (Hp1 & Hl1 & Hi1 & Hs1 & Hc1).
  destruct (saveMockPoint_resume_fields r w1) as (Hl2 & Hi2 & Hs2 & Hc2 & _).
  fold w1 in Hp1, Hl1, Hi1, Hs1, Hc1. fold w2 in Hl2, Hi2, Hs2, Hc2.
  assert (mapReady (composable w2) = true) as Hm2 by (by rewrite Hc2, Hc1).
  destruct (mockClickHandler_fields q w2 Hm2) as (Hp3 & Hl3 & Hi3 & Hs3 & _).
  fold w3 in Hp3, Hl3, Hi3, Hs3.
  split; [by apply saveMockPoint_begin_request|]. split; [done|].
  split; [rewrite Hl1; apply lookup_insert_eq|]. split; [done|].
  rewrite (saveMockPoint_begin_request bearing w3 q Hp3).
  rewrite Hl3, Hi3, Hs3, Hl2, Hi2, Hs2, Hl1, Hi1, Hs1.
  by rewrite lookup_insert_eq.
Qed.

Lemma mock_heading_from_last_point_witness :
  let w := mockClickHandler (mkLatLng 1 2) mounted in
  let w2 :=
    (saveMockPoint_resume NoReply (saveMockPoint_begin sample_bearing w).1).1 in
  (saveMockPoint_begin sample_bearing w).2
  = Some (mkMockPoint "TRK-001" 1 2 20 None)
  ∧ (saveMockPoint_begin sample_bearing
       (mockClickHandler (mkLatLng 3 5) w2)).2
    = Some (mkMockPoint "TRK-001" 3 5 20 (Some 5)).
Proof.
  intros w w2.
  destruct (mock_heading_from_last_point sample_bearing
              (mockClickHandler (mkLatLng 1 2) mounted)
              (mkLatLng 1 2) (mkLatLng 3 5) NoReply eq_refl eq_refl)
    as (H1 & _ & _ & _ & H5).
  exact (conj H1 H5).
Defined.

(** X14. [clearMockData] does nothing when the confirmation is declined.
    Confirmed, it drops the pending point and, once the request is answered
    with any status, resets the counter and forgets the last point of the
    tool's vehicle, so that the next point saved for it is sent with a null
    heading; when the request is not answered at all, the counter and the
    last point stay. *)
Theorem clearMockData_resets (bearing : LatLng → LatLng → number)
    (w : Viewer) (q : LatLng) (ok : bool) :
  mapReady (composable w) = true →
  let w1 := (clearMockData_begin true w).1 in
  let w2 := (clearMockData_resume (Replied ok) w1).1 in
  clearMockData_begin false w = (w, None)
  ∧ (clearMockData_begin true w).2 = Some (mockVehicleId w)
  ∧ pendingPoint w1 = None
  ∧ mockPointCount w2 = 0
  ∧ (clearMockData_resume (Replied ok) w1).2 = true
  ∧ (saveMockPoint_begin bearing (mockClickHandler q w2)).2
    = Some (mkMockPoint (mockVehicleId w) (ll_lat q) (ll_lng q)
              (mockSpeed w) None)
  ∧ clearMockData_resume NoReply w1 = (w1, false).
Proof.
  intros Hm w1 w2.
  split; [done|]. split; [done|]. split; [done|]. split; [done|].
  split; [done|]. split; [|done].
  assert (composable w2 = composable w ∧ mockVehicleId w2 = mockVehicleId w
          ∧ mockSpeed w2 = mockSpeed w
          ∧ lastMockPoints w2
            = delete (mockVehicleId w) (lastMockPoints w))
    as (Hc2 & Hi2 & Hs2 & Hl2).
  { unfold w2, w1, clearMockData_begin, clearMockData_resume,
      cancelMockPoint, forget_pending, remove_pending.
    cbn [fst]. by destruct (pendingMarker w). }
  assert (mapReady (composable w2) = true) as Hm2 by (by rewrite Hc2).
  destruct (mockClickHandler_fields q w2 Hm2) as (Hp3 & Hl3 & Hi3 & Hs3 & _).
  rewrite (saveMockPoint_begin_request bearing _ q Hp3).
  rewrite Hl3, Hi3, Hs3, Hl2, Hi2, Hs2.
  by rewrite lookup_delete_eq.
Qed.

Lemma clearMockData_resets_witness :
  let w :=
    (saveMockPoint_begin sample_bearing
       (mockClickHandler (mkLatLng 1 2) mounted)).1 in
  let w2 :=
    (clearMockData_resume (Replied false) (clearMockData_begin true w).1).1 in
  lastMockPoints w !! "TRK-001" = Some (mkLatLng 1 2)
  ∧ (saveMockPoint_begin sample_bearing
       (mockClickHandler (mkLatLng 3 5) w2)).2
    = Some (mkMockPoint "TRK-001" 3 5 20 None).
Proof.
  intros w w2. split; [reflexivity|].
  exact (proj1 (proj2 (proj2 (proj2 (proj2 (proj2
           (clearMockData_resets sample_bearing
              (saveMockPoint_begin sample_bearing
                 (mockClickHandler (mkLatLng 1 2) mounted)).1
              (mkLatLng 3 5) false eq_refl))))))).
Defined.

(** ** Invariants of the registry alone *)

(** A property of the registry that holds of the empty registry and that
    one loop iteration and the removal of entries preserve holds in every
    state an execution reaches. *)
Lemma run_registry_invariant (P : JSMap.t MarkerEntry → Prop) :
  P [] →
  (∀ K s v, P (markerMap s) → P (markerMap (reconcile_one K s v))) →
  (∀ (Q : string * MarkerEntry → Prop) `{∀ x, Decision (Q x)} m,
     P m → P (filter Q m)) →
  ∀ es y y', P (markerMap (tracking y)) → run es y = Some y' →
             P (markerMap (tracking y')).
Proof.
  intros Hnil Hone Hfilter.
  assert (∀ K data s seen, P (markerMap s) →
            P (markerMap (reconcile_loop K data (s, seen)).1)) as Hloop.
  { intros K data. induction data as [|v data IH]; intros s seen HP; [done|].
    rewrite reconcile_loop_cons. by apply IH, Hone. }
  assert (∀ r s, P (markerMap s) → P (markerMap (refresh_resume r s)))
    as Hrefresh.
  { intros r s HP. destruct r as [| | |data]; try done.
    unfold refresh_resume. destruct (negb _); [done|].
    rewrite reconcile_markerMap. apply Hfilter. by apply Hloop. }
  assert (∀ e y y', P (markerMap (tracking y)) → step e y = Some y' →
                    P (markerMap (tracking y'))) as Hstep.
  { intros e y y' HP Hstep.
    destruct e as [ms| | | | |vid| | | |r|r|r]; cbn [step] in Hstep.
    - injection Hstep as <-. unfold on_state, launch_refresh.
      by destruct (refresh_begin _).
    - by injection Hstep as <-.
    - injection Hstep as <-. unfold launch_refresh.
      by destruct (refresh_begin _).
    - destruct (timer (tracking y)); [|done]. injection Hstep as <-.
      unfold launch_refresh. by destruct (refresh_begin _).
    - by injection Hstep as <-.
    - injection Hstep as <-. cbn [tracking].
      by rewrite selectVehicle_begin_markerMap.
    - injection Hstep as <-. cbn [tracking on_state].
      by rewrite clearTrack_markerMap.
    - injection Hstep as <-.
      assert (P (markerMap (toggleVisibility (tracking y)))) as Ht.
      { unfold toggleVisibility. destruct (mapReady _); [|done].
        cbn [visible with_visible]. by destruct (negb _). }
      destruct (toggleVisibility_refreshes _); [|done].
      unfold launch_refresh. by destruct (refresh_begin _).
    - by injection Hstep as <-.
    - destruct (refreshes y); [done|]. injection Hstep as <-.
      by apply Hrefresh.
    - destruct (selections y); [done|]. injection Hstep as <-. cbn [tracking].
      by rewrite selectVehicle_resume_markerMap.
    - destruct (registrations y); [done|]. injection Hstep as <-.
      cbn [tracking]. by destruct r. }
  intros es. induction es as [|e es IH]; intros y y' HP Hrun;
    cbn [run] in Hrun.
  - by injection Hrun as <-.
  - destruct (step e y) as [y1|] eqn:He; [|done].
    eapply IH; [|done]. by eapply Hstep.
Qed.

Lemma update_entry_bound v h c e :
  bound_to (vehicleId v) e → bound_to (vehicleId v) (update_entry v h c e).1.
Proof.
  unfold bound_to, update_entry. intros (Ht & Hc & Hz & p & Hp & Hid).
  destruct (_ || _), (_ || _), (_ || _); cbn; rewrite ?Hp;
    repeat split; eauto.
Qed.

(** X17. In every state an execution reaches, the marker of each registry
    entry is bound to the id it is registered under: its tooltip shows that
    id, its click selects that id, and its popup is the popup of a position
    of that id.  Updates in place never rebind a marker. *)
Theorem markers_bound_to_their_ids (es : list Event) (y : System)
    (k : string) (e : MarkerEntry) :
  run es booted = Some y →
  JSMap.get k (markerMap (tracking y)) = Some e →
  bound_to k e.
Proof.
  intros Hrun Hget. apply get_Some_elem in Hget.
  assert (Forall (λ kv, bound_to kv.1 kv.2) (markerMap (tracking y))) as Hall.
  { apply (run_registry_invariant (Forall (λ kv, bound_to kv.1 kv.2)))
      with (es := es) (y := booted); [constructor| | |constructor|done].
    - intros K s v Hall.
      destruct (JSMap.get (vehicleId v) (markerMap s)) as [e0|] eqn:Hg.
      + rewrite (reconcile_one_existing K s v e0 Hg).
        cbn [markerMap log with_markerMap]. apply Forall_set; [done|].
        apply update_entry_bound. apply get_Some_elem in Hg.
        exact (proj1 (Forall_forall _ _) Hall _ Hg).
      + rewrite (reconcile_one_new K s v Hg). unfold create_entry.
        cbn [markerMap log with_markerMap with_markerLayer].
        apply Forall_set; [done|]. repeat split. by eexists.
    - intros Q HQ m Hall. apply Forall_forall. intros kv Hkv.
      apply list_elem_of_filter in Hkv as [_ Hkv].
      exact (proj1 (Forall_forall _ _) Hall _ Hkv). }
  exact (proj1 (Forall_forall _ _) Hall _ Hget).
Qed.

Lemma markers_bound_to_their_ids_witness :
  ∃ e, JSMap.get "B" (markerMap (tracking sample_running)) = Some e
       ∧ bound_to "B" e.
Proof.
  eexists. split; [reflexivity|].
  apply (markers_bound_to_their_ids
           [CallStart 8000; RefreshSettles (Ok [sample_A; sample_B])]
           sample_running "B"); vm_compute; reflexivity.
Defined.

(** X16. After a [refresh] (visible, map handle, successful fetch) from any
    state an execution reaches, the registry and the layer group hold
    exactly as many markers as the snapshot has distinct vehicle ids. *)
Theorem one_marker_per_vehicle (es : list Event) (y : System)
    (data : list VehiclePosition) :
  run es booted = Some y →
  visible (tracking y) = true → mapReady (tracking y) = true →
  let s' := refresh (Ok data) (tracking y) in
  length (markerMap s') = size (list_to_set (ids data) : gset string)
  ∧ size (markerLayer s') = size (list_to_set (ids data) : gset string).
Proof.
  intros Hrun Hv Hm s'.
  destruct (run_layer_ok es booted y wf_initial layer_ok_initial Hrun)
    as [Hwf Hok].
  assert (wf s') as [Hk _] by (by apply refresh_wf).
  assert (layer_ok s') as [Hd _ Hl].
  { unfold s'. rewrite (refresh_visible data _ Hv Hm).
    apply reconcile_layer_ok.
    - by apply (wf_same_markerMap (tracking y)).
    - by apply (layer_ok_kept (tracking y)). }
  assert (length (markerMap s') = size (list_to_set (ids data) : gset string))
    as Hlen.
  { rewrite <- (refresh_keys data (tracking y) Hv Hm). fold s'.
    rewrite size_list_to_set by done. unfold JSMap.keys.
    by rewrite length_fmap. }
  split; [done|].
  rewrite Hl, size_list_to_set by done. unfold stamps.
  by rewrite length_fmap.
Qed.

Lemma one_marker_per_vehicle_witness :
  length (markerMap (refresh (Ok sample_duplicates) (tracking sample_running)))
  = size (list_to_set (ids sample_duplicates) : gset string).
Proof.
  apply (one_marker_per_vehicle
           [CallStart 8000; RefreshSettles (Ok [sample_A; sample_B])]
           sample_running sample_duplicates); vm_compute; reflexivity.
Defined.

(** X15. Clearing the track while a history fetch is in flight does not
    cancel it: when the fetch settles with two points or more the track is
    drawn all the same, and the state then has a track on the map and no
    selected vehicle. *)
Theorem clearTrack_does_not_cancel (s : State) (vid : string)
    (points : list VehiclePosition) :
  mapReady s = true → (2 ≤ length points)%nat →
  let s1 := clearTrack (selectVehicle_begin vid s) in
  let s2 := selectVehicle_resume (Ok points) s1 in
  selectedVehicleId s1 = None
  ∧ trackPolyline s1 = None
  ∧ selectedVehicleId s2 = None
  ∧ ∃ pl, trackPolyline s2 = Some pl
          ∧ pl ∈ mapPolylines s2
          ∧ pl_latlngs pl = vertices points.
Proof.
  intros Hm Hn s1 s2.
  destruct (selectVehicle_resume_draws points s1 Hn) as (Ht & Hmp & _).
  fold s2 in Ht, Hmp.
  split; [done|]. split; [done|]. split.
  - destruct (selectVehicle_resume_keeps (Ok points) s1)
      as (_ & _ & _ & _ & _ & _ & Hsel).
    fold s2 in Hsel. by rewrite Hsel.
  - eexists. split; [exact Ht|]. split; [|done].
    rewrite Hmp. apply elem_of_app. right. apply list_elem_of_here.
Qed.

Lemma clearTrack_does_not_cancel_witness :
  let s2 :=
    selectVehicle_resume (Ok sample_track_A)
      (clearTrack (selectVehicle_begin "A" initial)) in
  selectedVehicleId s2 = None
  ∧ ∃ pl, trackPolyline s2 = Some pl
          ∧ pl ∈ mapPolylines s2
          ∧ pl_latlngs pl = vertices sample_track_A.
Proof.
  intros s2.
  destruct (clearTrack_does_not_cancel initial "A" sample_track_A eq_refl)
    as (_ & _ & Hsel & Hpl).
  - cbn. lia.
  - exact (conj Hsel Hpl).
Defined.

(** ** What stop leaves behind *)

(** X18. [stop] takes everything of the tracking off the map and empties the
    registry and the layer group: from a state that obeys the track
    discipline no polyline is left, with a map handle the layer group is
    detached, and the timer variable is null.  It keeps [vehicles], the
    selection and the reference to the removed track. *)
Theorem stop_leaves_nothing (s : State) :
  single_track s →
  (markerMap (stop s) = [] ∧ markerLayer (stop s) = ∅
   ∧ mapPolylines (stop s) = [] ∧ timer (stop s) = None
   ∧ (mapReady s = true → hasMarkerLayer (stop s) = false))
  ∧ (vehicles (stop s) = vehicles s
     ∧ selectedVehicleId (stop s) = selectedVehicleId s
     ∧ trackPolyline (stop s) = trackPolyline s
     ∧ visible (stop s) = visible s).
Proof.
  intros Hs. destruct (stop_cleared s) as (Hm & Hl & Ht & Hh). split.
  - split; [done|]. split; [done|]. split; [|split; [done|]].
    + apply stop_polylines. by left.
    + intros Hr. by rewrite Hh, Hr.
  - destruct s as [? ? ? ? ? ? tp ? mr ? ? ? ?].
    unfold stop, remove_track. cbn. by destruct tp, mr.
Qed.

Lemma stop_leaves_nothing_witness :
  let s := selectVehicle (Ok sample_track_A) "A" (tracking sample_running) in
  mapPolylines s = [mkPolyline 2 (vertices sample_track_A)]
  ∧ markerMap (stop s) = [] ∧ markerLayer (stop s) = ∅
  ∧ mapPolylines (stop s) = [] ∧ timer (stop s) = None
  ∧ (mapReady s = true → hasMarkerLayer (stop s) = false).
Proof.
  intros s. split; [vm_compute; reflexivity|].
  apply (stop_leaves_nothing s). right.
  exists (mkPolyline 2 (vertices sample_track_A)).
  split; vm_compute; reflexivity.
Defined.
